(** * stable_branch: a shallow embedding of [main.py]

    The script synchronises a fixed "stable" branch over the repositories of
    a build report.  Every repository is handled by [handle_branch], run on a
    two-worker thread pool; outcomes are collected in the global dictionary
    [error_list] and rendered by [display_results].

    Python strings are sequences of code points ([pystr]), byte strings are
    lists of bytes, and the functions of the script are programs of a small
    monad [prog] whose primitive actions are the two kinds of effect the
    script has: running a [git] process and touching [error_list].  The rows
    of the report are taken as the CSV reader yields them; the command line
    is not modelled. *)

From Stdlib Require Import Strings.String Strings.Ascii Strings.Byte.
From Stdlib Require Import List ZArith NArith Bool Lia Arith.
Import ListNotations.

Set Implicit Arguments.

(** ** Strings and bytes *)

Module PyStr.

Definition pystr := list N.
Definition bytes := list byte.

Fixpoint lit (s : string) : pystr :=
  match s with
  | EmptyString => []
  | String c r => N_of_ascii c :: lit r
  end.

Definition eqb (a b : pystr) : bool :=
  if list_eq_dec N.eq_dec a b then true else false.

(** [s.startswith(p)] *)
Fixpoint prefixb (p s : pystr) : bool :=
  match p, s with
  | [], _ => true
  | _ :: _, [] => false
  | a :: p', b :: s' => N.eqb a b && prefixb p' s'
  end.

(** [sub in s] *)
Fixpoint contains (sub s : pystr) : bool :=
  prefixb sub s ||
  match s with
  | [] => false
  | _ :: t => contains sub t
  end.

(** [s.replace(old, "")]: the occurrences of [old] are removed from left to
    right, without overlap.  [skip] counts the characters of a match still to
    be dropped. *)
Fixpoint remove_aux (old : pystr) (skip : nat) (s : pystr) : pystr :=
  match s with
  | [] => []
  | c :: t =>
      match skip with
      | S k => remove_aux old k t
      | O => if prefixb old s
             then remove_aux old (length old - 1) t
             else c :: remove_aux old 0 t
      end
  end.

Definition remove (old s : pystr) : pystr :=
  match old with
  | [] => s
  | _ :: _ => remove_aux old 0 s
  end.

Definition SPACE : N := 32%N.

(** [s.ljust(width)] *)
Definition ljust (s : pystr) (width : nat) : pystr :=
  s ++ repeat SPACE (width - length s).

(** [s.center(width)], with CPython's rounding of the left margin. *)
Definition center (s : pystr) (width : nat) : pystr :=
  let marg := width - length s in
  let left := Nat.div2 marg + (if Nat.odd marg && Nat.odd width then 1 else 0) in
  repeat SPACE left ++ s ++ repeat SPACE (marg - left).

(** [c * n] for a one-character string [c] *)
Definition times (c : N) (n : nat) : pystr := repeat c n.

(** *** UTF-8 *)

Definition is_cont (n : N) : bool := (0x80 <=? n)%N && (n <=? 0xBF)%N.
Definition between (lo n hi : N) : bool := (lo <=? n)%N && (n <=? hi)%N.

(** [b.decode("utf-8")]; [None] stands for [UnicodeDecodeError]. *)
Fixpoint decode (bs : bytes) : option pystr :=
  match bs with
  | [] => Some []
  | b0 :: r0 =>
    let n0 := Byte.to_N b0 in
    if (n0 <? 0x80)%N then option_map (cons n0) (decode r0)
    else
      match r0 with
      | [] => None
      | b1 :: r1 =>
        let n1 := Byte.to_N b1 in
        if between 0xC2 n0 0xDF then
          if is_cont n1
          then option_map (cons ((n0 - 0xC0) * 64 + (n1 - 0x80))%N) (decode r1)
          else None
        else
          match r1 with
          | [] => None
          | b2 :: r2 =>
            let n2 := Byte.to_N b2 in
            if between 0xE0 n0 0xEF then
              if (if (n0 =? 0xE0)%N then between 0xA0 n1 0xBF
                  else if (n0 =? 0xED)%N then between 0x80 n1 0x9F
                  else is_cont n1) && is_cont n2
              then option_map
                     (cons ((n0 - 0xE0) * 4096 + (n1 - 0x80) * 64 + (n2 - 0x80))%N)
                     (decode r2)
              else None
            else
              match r2 with
              | [] => None
              | b3 :: r3 =>
                let n3 := Byte.to_N b3 in
                if between 0xF0 n0 0xF4 then
                  if (if (n0 =? 0xF0)%N then between 0x90 n1 0xBF
                      else if (n0 =? 0xF4)%N then between 0x80 n1 0x8F
                      else is_cont n1) && is_cont n2 && is_cont n3
                  then option_map
                         (cons ((n0 - 0xF0) * 262144 + (n1 - 0x80) * 4096
                                + (n2 - 0x80) * 64 + (n3 - 0x80))%N)
                         (decode r3)
                  else None
                else None
              end
          end
      end
  end.

Definition byte_of (n : N) : byte :=
  match Byte.of_N n with
  | Some b => b
  | None => x00
  end.

(** [s.encode("utf-8")]; [None] stands for [UnicodeEncodeError]. *)
Fixpoint encode (s : pystr) : option bytes :=
  match s with
  | [] => Some []
  | c :: r =>
    let rest := encode r in
    if (c <? 0x80)%N then option_map (cons (byte_of c)) rest
    else if (c <? 0x800)%N then
      option_map (fun t => byte_of (0xC0 + c / 64) :: byte_of (0x80 + c mod 64) :: t) rest
    else if (c <? 0x10000)%N then
      if between 0xD800 c 0xDFFF then None
      else option_map (fun t => byte_of (0xE0 + c / 4096)
                                :: byte_of (0x80 + (c / 64) mod 64)
                                :: byte_of (0x80 + c mod 64) :: t) rest
    else if (c <? 0x110000)%N then
      option_map (fun t => byte_of (0xF0 + c / 262144)
                           :: byte_of (0x80 + (c / 4096) mod 64)
                           :: byte_of (0x80 + (c / 64) mod 64)
                           :: byte_of (0x80 + c mod 64) :: t) rest
    else None
  end.

End PyStr.

Import PyStr.

(** ** Module constants *)

Definition NEWLINE : pystr := [10%N].
Definition RED : pystr := 27%N :: lit "[31m".
Definition GREEN : pystr := 27%N :: lit "[32m".
Definition RESET : pystr := 27%N :: lit "[0m".
Definition STABLE_BRANCH_NAME : pystr := lit "autotest-stable".

(** ** Exceptions, outcomes and the report rows *)

Inductive exn : Type :=
| UnknownGitException (message : pystr)
| UnicodeDecodeError
| UnicodeEncodeError
| AttributeError
| KeyError (key : pystr).

Inductive result (A : Type) : Type :=
| Normal (a : A)
| Raised (e : exn).
Arguments Normal {A} a.
Arguments Raised {A} e.

Record Data : Type := mkData {
  get_repository : pystr;
  get_url : pystr;
  get_hashcode : pystr
}.

Record Error : Type := mkError {
  get_message : pystr;
  is_error : bool
}.

(** [Error.__init__(message, code)]: an absent or empty byte string gives the
    empty message; decoding can raise. *)
Definition Error_init (message : option bytes) (code : Z) : result Error :=
  match message with
  | Some (b :: m) =>
      match decode (b :: m) with
      | Some s => Normal (mkError (remove NEWLINE s) (negb (code =? 0)%Z))
      | None => Raised UnicodeDecodeError
      end
  | _ => Normal (mkError [] (negb (code =? 0)%Z))
  end.

(** ** The dictionary [error_list]

    A Python [dict] keeps its keys in insertion order, and [display_results]
    iterates in that order, so the dictionary is an association list. *)

Definition error_list := list (pystr * list pystr).

Fixpoint dict_get (k : pystr) (d : error_list) : option (list pystr) :=
  match d with
  | [] => None
  | (k', v) :: r => if eqb k k' then Some v else dict_get k r
  end.

(** [k in d] *)
Definition dict_in (k : pystr) (d : error_list) : bool :=
  match dict_get k d with
  | Some _ => true
  | None => false
  end.

(** [d[k] = v]: an existing key keeps its position. *)
Fixpoint dict_set (k : pystr) (v : list pystr) (d : error_list) : error_list :=
  match d with
  | [] => [(k, v)]
  | (k', v') :: r => if eqb k k' then (k', v) :: r else (k', v') :: dict_set k v r
  end.

(** [d[k].append(line)]; [None] stands for the [KeyError] of [d[k]]. *)
Definition dict_append (k : pystr) (line : pystr) (d : error_list) : option error_list :=
  match dict_get k d with
  | Some v => Some (dict_set k (v ++ [line]) d)
  | None => None
  end.

(** ** Programs

    [Exec argv cwd] runs a process to completion ([Popen] followed by
    [communicate]); the three dictionary actions are the statements of
    [store_error] that read or write [error_list]. *)

Record completed : Type := mkCompleted {
  proc_stdout : bytes;
  proc_stderr : bytes;
  returncode : Z
}.

Inductive prog (A : Type) : Type :=
| Ret (a : A)
| Raise (e : exn)
| Exec (argv : list pystr) (cwd : pystr) (k : completed -> prog A)
| Contains (key : pystr) (k : bool -> prog A)
| SetEmpty (key : pystr) (k : prog A)
| Append (key : pystr) (line : pystr) (k : prog A).
Arguments Ret {A} a.
Arguments Raise {A} e.

Fixpoint bind {A B : Type} (p : prog A) (f : A -> prog B) : prog B :=
  match p with
  | Ret a => f a
  | Raise e => Raise e
  | Exec argv cwd k => Exec argv cwd (fun r => bind (k r) f)
  | Contains key k => Contains key (fun b => bind (k b) f)
  | SetEmpty key k => SetEmpty key (bind k f)
  | Append key line k => Append key line (bind k f)
  end.

Declare Scope prog_scope.
Delimit Scope prog_scope with prog.
Notation "x <- c1 ;; c2" := (bind c1 (fun x => c2))
  (at level 61, c1 at next level, right associativity) : prog_scope.
Notation "' pat <- c1 ;; c2" := (bind c1 (fun x => match x with pat => c2 end))
  (at level 61, pat pattern, c1 at next level, right associativity) : prog_scope.
Notation "c1 ;; c2" := (bind c1 (fun _ => c2))
  (at level 61, right associativity) : prog_scope.
Local Open Scope prog_scope.

Definition lift {A : Type} (r : result A) : prog A :=
  match r with
  | Normal a => Ret a
  | Raised e => Raise e
  end.

(** [Popen(argv, shell=True, cwd=cwd, stdout=..., stderr=...)] followed by
    [cmd.communicate()] and [cmd.returncode]: a stream that is not piped is
    reported as [None].  What the shell makes of the argument list is part of
    the answer the process gives. *)
Definition popen_communicate (argv : list pystr) (cwd : pystr)
    (stdout_pipe stderr_pipe : bool) : prog (option bytes * option bytes * Z) :=
  Exec argv cwd (fun r =>
    Ret (if stdout_pipe then Some (proc_stdout r) else None,
         if stderr_pipe then Some (proc_stderr r) else None,
         returncode r)).

Definition workspace : pystr := lit "./stable_workspace/".
Definition repo_dir (repository : pystr) : pystr :=
  lit "./stable_workspace/" ++ repository ++ lit "/".

(** Truth value of an optional byte string ([if err:]). *)
Definition truthy (b : option bytes) : bool :=
  match b with
  | Some (_ :: _) => true
  | _ => false
  end.

Section Operations.

Variable verbose : bool.

Definition store_error (repository : pystr) (error : Error) : prog unit :=
  if is_error error || verbose then
    present <- Contains repository Ret ;;
    (if negb present then SetEmpty repository (Ret tt) else Ret tt) ;;
    if is_error error
    then Append repository (RED ++ get_message error ++ RESET) (Ret tt)
    else Append repository (get_message error) (Ret tt)
  else Ret tt.

Definition branch_exists (repository branch_name : pystr) : prog bool :=
  '(out, err, _) <- popen_communicate [lit "git"; lit "branch"; lit "-a"]
                      (repo_dir repository) true false ;;
  if truthy err then
    match err with
    | Some e =>
        match decode e with
        | Some s => Raise (UnknownGitException
                             (lit "Issue while checking branch error: " ++ s))
        | None => Raise UnicodeDecodeError
        end
    | None => Raise AttributeError
    end
  else
    match out with
    | Some o =>
        match decode o with
        | Some s => Ret (contains branch_name s)
        | None => Raise UnicodeDecodeError
        end
    | None => Raise AttributeError
    end.

Definition clone (repository url : pystr) : prog bool :=
  '(out, err, code) <- popen_communicate [lit "git"; lit "clone"; url]
                         workspace true true ;;
  error <- lift (Error_init err code) ;;
  store_error repository error ;;
  Ret (is_error error).

Definition checkout_branch (repository branch_name : pystr) : prog bool :=
  '(out, err, code) <- popen_communicate [lit "git"; lit "checkout"; branch_name]
                         (repo_dir repository) true true ;;
  error <- lift (Error_init err code) ;;
  store_error repository error ;;
  Ret (is_error error).

Definition create_branch_from_position (repository branch_name : pystr) : prog bool :=
  '(out, err, code) <- popen_communicate
                         [lit "git"; lit "checkout"; lit "-b"; branch_name]
                         (repo_dir repository) true false ;;
  error <- (if negb (code =? 0)%Z
            then lift (Error_init err code)
            else match encode (lit "Branch Created Successfully") with
                 | Some b => lift (Error_init (Some b) code)
                 | None => Raise UnicodeEncodeError
                 end) ;;
  store_error repository error ;;
  Ret (is_error error).

Definition merge_commit_into_current_branch (repository hashcode : pystr) : prog bool :=
  '(out, err, code) <- popen_communicate
                         [lit "git"; lit "merge"; lit "--no-ff"; hashcode]
                         (repo_dir repository) true false ;;
  error <- (if negb (code =? 0)%Z
            then lift (Error_init err code)
            else lift (Error_init out code)) ;;
  store_error repository error ;;
  Ret (is_error error).

(** [get_branch]: nothing in the script calls it. *)
Definition get_branch (repository : pystr) : prog bool :=
  '(out, err, code) <- popen_communicate [lit "git"; lit "checkout"; lit "stable"]
                         (repo_dir repository) true false ;;
  error <- lift (Error_init err code) ;;
  store_error repository error ;;
  Ret (is_error error).

Definition handle_branch (url repository hashcode : pystr) : prog unit :=
  failed <- clone repository url ;;
  if failed then Ret tt else
  found <- branch_exists repository STABLE_BRANCH_NAME ;;
  if found then
    failed <- checkout_branch repository STABLE_BRANCH_NAME ;;
    if failed then Ret tt else
    failed <- merge_commit_into_current_branch repository hashcode ;;
    if failed then Ret tt else Ret tt
  else
    failed <- checkout_branch repository hashcode ;;
    if failed then Ret tt else
    failed <- create_branch_from_position repository STABLE_BRANCH_NAME ;;
    if failed then Ret tt else Ret tt.

End Operations.

(** ** Running one program on its own

    The driver stands for [git] and the file system: it answers every process
    invocation, as a function of the command line and the working directory.
    The trace lists the invocations in the order they were made. *)

Definition driver := list pystr -> pystr -> completed.
Definition invocation := (list pystr * pystr)%type.

Fixpoint run {A : Type} (drv : driver) (p : prog A)
    (log : error_list) (tr : list invocation)
  : result A * error_list * list invocation :=
  match p with
  | Ret a => (Normal a, log, tr)
  | Raise e => (Raised e, log, tr)
  | Exec argv cwd k => run drv (k (drv argv cwd)) log (tr ++ [(argv, cwd)])
  | Contains key k => run drv (k (dict_in key log)) log tr
  | SetEmpty key k => run drv k (dict_set key [] log) tr
  | Append key line k =>
      match dict_append key line log with
      | Some log' => run drv k log' tr
      | None => (Raised (KeyError key), log, tr)
      end
  end.

(** ** The report table *)

Module Box.
Definition TL : N := 0x2554%N.   (* top left corner *)
Definition H  : N := 0x2550%N.   (* horizontal bar *)
Definition TJ : N := 0x2566%N.   (* top junction *)
Definition TR : N := 0x2557%N.   (* top right corner *)
Definition V  : N := 0x2551%N.   (* vertical bar *)
Definition LJ : N := 0x2560%N.   (* left junction *)
Definition X  : N := 0x256C%N.   (* crossing *)
Definition RJ : N := 0x2563%N.   (* right junction *)
Definition BL : N := 0x255A%N.   (* bottom left corner *)
Definition BJ : N := 0x2569%N.   (* bottom junction *)
Definition BR : N := 0x255D%N.   (* bottom right corner *)
End Box.

(** [message.replace(RED, "").replace(RESET, "")] *)
Definition cleaned (message : pystr) : pystr :=
  remove RESET (remove RED message).

Definition longer (current : nat) (s : pystr) : nat :=
  if current <? length s then length s else current.

(** The first loop of [display_results]: [(longest_key, longest_value)]. *)
Definition measure (log : error_list) : nat * nat :=
  fold_left
    (fun (acc : nat * nat) (item : pystr * list pystr) =>
       let '(longest_key, longest_value) := acc in
       let '(key, messages) := item in
       (longer longest_key key,
        fold_left (fun lv message => longer lv (cleaned message))
                  messages longest_value))
    log (0, 0).

Definition border (l m r : N) (longest_key longest_value : nat) : pystr :=
  [l; Box.H] ++ times Box.H longest_key ++ [Box.H; m; Box.H]
  ++ times Box.H longest_value ++ [Box.H; r].

Definition cells (left right : pystr) : pystr :=
  [Box.V; SPACE] ++ left ++ [SPACE; Box.V; SPACE] ++ right ++ [SPACE; Box.V].

Definition header_row (longest_key longest_value : nat) : pystr :=
  cells (ljust (lit "repo") longest_key) (center (lit "error") longest_value).

Definition data_row (longest_key longest_value : nat) (name message : pystr) : pystr :=
  cells (ljust name longest_key) (ljust message longest_value).

(** The inner loop of the second pass: the state is [is_first] and the lines
    printed so far. *)
Definition print_message (longest_key longest_value : nat) (repo : pystr)
    (st : bool * list pystr) (message : pystr) : bool * list pystr :=
  let '(is_first, printed) := st in
  let message := remove NEWLINE message in
  (false,
   if eqb message []
   then printed
   else printed ++ [data_row longest_key longest_value
                             (if is_first then repo else []) message]).

Definition print_repo (longest_key longest_value : nat)
    (printed : list pystr) (item : pystr * list pystr) : list pystr :=
  let '(repo, messages) := item in
  snd (fold_left (print_message longest_key longest_value repo) messages (true, printed))
  ++ [border Box.LJ Box.X Box.RJ longest_key longest_value].

(** The lines printed by [display_results()], in order. *)
Definition display_results (log : error_list) : list pystr :=
  let '(longest_key, longest_value) := measure log in
  fold_left (print_repo longest_key longest_value) log
    [border Box.TL Box.TJ Box.TR longest_key longest_value;
     header_row longest_key longest_value;
     border Box.LJ Box.X Box.RJ longest_key longest_value]
  ++ [border Box.BL Box.BJ Box.BR longest_key longest_value].

(** ** The thread pool

    [ThreadPoolExecutor(max_workers=2)]: submitted tasks wait in a queue, an
    idle worker takes the oldest one, and whatever the task returns or raises
    is stored in its future, which the script never reads.  The script takes
    no lock, so a worker can be pre-empted between any two actions of its
    program: around every process it runs and between the statements of
    [store_error] that test, create and extend a key of [error_list].  One
    such statement is one step; what happens inside a statement is not
    modelled. *)

Definition MAX_WORKERS : nat := 2.

Record pool : Type := mkPool {
  queue : list Data;
  workers : list (option (Data * prog unit));
  futures : list (result unit);
  shared : error_list;
  calls : list invocation
}.

Fixpoint set_nth {A : Type} (i : nat) (x : A) (l : list A) : list A :=
  match l, i with
  | [], _ => []
  | _ :: t, O => x :: t
  | h :: t, S j => h :: set_nth j x t
  end.

Section Pool.

Variable verbose : bool.
Variable drv : driver.

(** [thread_pool.submit(handle_branch, url=..., repository=..., hashcode=...)] *)
Definition submit (data : Data) : prog unit :=
  handle_branch verbose (get_url data) (get_repository data) (get_hashcode data).

(** One step of worker [i]: an idle worker takes the oldest queued row, a
    busy one performs the next action of its task. *)
Definition pool_step (i : nat) (s : pool) : option pool :=
  match nth_error (workers s) i with
  | None => None
  | Some None =>
      match queue s with
      | [] => None
      | data :: rest =>
          Some (mkPool rest (set_nth i (Some (data, submit data)) (workers s))
                       (futures s) (shared s) (calls s))
      end
  | Some (Some (data, p)) =>
      let finish r :=
        mkPool (queue s) (set_nth i None (workers s)) (futures s ++ [r])
               (shared s) (calls s) in
      let continue p' log calls' :=
        mkPool (queue s) (set_nth i (Some (data, p')) (workers s)) (futures s)
               log calls' in
      match p with
      | Ret a => Some (finish (Normal a))
      | Raise e => Some (finish (Raised e))
      | Exec argv cwd k =>
          Some (continue (k (drv argv cwd)) (shared s) (calls s ++ [(argv, cwd)]))
      | Contains key k =>
          Some (continue (k (dict_in key (shared s))) (shared s) (calls s))
      | SetEmpty key k =>
          Some (continue k (dict_set key [] (shared s)) (calls s))
      | Append key line k =>
          match dict_append key line (shared s) with
          | Some log' => Some (continue k log' (calls s))
          | None => Some (finish (Raised (KeyError key)))
          end
      end
  end.

Fixpoint run_schedule (schedule : list nat) (s : pool) : option pool :=
  match schedule with
  | [] => Some s
  | i :: rest =>
      match pool_step i s with
      | Some s' => run_schedule rest s'
      | None => None
      end
  end.

Definition idle (w : option (Data * prog unit)) : bool :=
  match w with
  | None => true
  | Some _ => false
  end.

Definition all_done (s : pool) : bool :=
  match queue s with
  | [] => forallb idle (workers s)
  | _ :: _ => false
  end.

Definition start (repositories : list Data) : pool :=
  mkPool repositories (repeat None MAX_WORKERS) [] [] [].

(** The script body after the report is loaded: every row is submitted,
    [shutdown(True)] waits for the workers, and the table is printed.  The
    schedule says which worker moves at each step; [None] is a schedule that
    does not describe a complete execution.  The futures are returned next to
    the printed lines only to make them observable: the script drops them. *)
Definition main (repositories : list Data) (schedule : list nat)
  : option (result (list pystr) * list (result unit)) :=
  match run_schedule schedule (start repositories) with
  | Some s =>
      if all_done s
      then Some (Normal (display_results (shared s)), futures s)
      else None
  | None => None
  end.

End Pool.

(** * Definitions used to state the properties *)

(** ** What the recorder is to do *)

(** The spec's "append to that repository's line sequence, creating the
    sequence on first use". *)
Definition record_line (repository line : pystr) (log : error_list) : error_list :=
  match dict_get repository log with
  | Some lines => dict_set repository (lines ++ [line]) log
  | None => log ++ [(repository, [line])]
  end.

(** The spec's [record(repositoryName, outcome, verbosityEnabled)]. *)
Definition recorded (verbose : bool) (repository : pystr) (outcome : Error)
    (log : error_list) : error_list :=
  if is_error outcome
  then record_line repository (RED ++ get_message outcome ++ RESET) log
  else if verbose
       then record_line repository (get_message outcome) log
       else log.

(** ** The five invocations and what each operation does with the answer *)

Definition git_clone (url : pystr) : invocation :=
  ([lit "git"; lit "clone"; url], workspace).

Definition git_branch_a (repository : pystr) : invocation :=
  ([lit "git"; lit "branch"; lit "-a"], repo_dir repository).

Definition git_checkout (repository ref : pystr) : invocation :=
  ([lit "git"; lit "checkout"; ref], repo_dir repository).

Definition git_checkout_b (repository branch_name : pystr) : invocation :=
  ([lit "git"; lit "checkout"; lit "-b"; branch_name], repo_dir repository).

Definition git_merge (repository hashcode : pystr) : invocation :=
  ([lit "git"; lit "merge"; lit "--no-ff"; hashcode], repo_dir repository).

Definition answer (drv : driver) (i : invocation) : completed :=
  drv (fst i) (snd i).

(** The outcome object each operation builds from the driver's answer. *)
Definition piped_outcome (drv : driver) (i : invocation) : result Error :=
  Error_init (Some (proc_stderr (answer drv i))) (returncode (answer drv i)).

Definition create_outcome (drv : driver) (i : invocation) : result Error :=
  let code := returncode (answer drv i) in
  if negb (code =? 0)%Z
  then Error_init None code
  else Normal (mkError (lit "Branch Created Successfully") false).

Definition merge_outcome (drv : driver) (i : invocation) : result Error :=
  let code := returncode (answer drv i) in
  if negb (code =? 0)%Z
  then Error_init None code
  else Error_init (Some (proc_stdout (answer drv i))) code.

Definition branch_found (drv : driver) (repository branch_name : pystr) : result bool :=
  match decode (proc_stdout (answer drv (git_branch_a repository))) with
  | Some s => Normal (contains branch_name s)
  | None => Raised UnicodeDecodeError
  end.

(** An operation stops the repository's sequence when it reports failure or
    raises. *)
Definition stops (outcome : result Error) : bool :=
  match outcome with
  | Normal e => is_error e
  | Raised _ => true
  end.

Definition after_operation (verbose : bool) (repository : pystr)
    (outcome : result Error) (i : invocation)
    (log : error_list) (tr : list invocation)
  : result bool * error_list * list invocation :=
  match outcome with
  | Normal e => (Normal (is_error e), recorded verbose repository e log, tr ++ [i])
  | Raised x => (Raised x, log, tr ++ [i])
  end.

(** ** The order of operations in [handle_branch] *)

(** The invocations the spec's state machine makes for one repository: clone,
    existence check, then checkout and merge when the stable branch was found,
    checkout and create when it was not; nothing follows a step that stops. *)
Definition expected_calls (drv : driver) (url repository hashcode : pystr)
  : list invocation :=
  git_clone url ::
  if stops (piped_outcome drv (git_clone url)) then [] else
  git_branch_a repository ::
  match branch_found drv repository STABLE_BRANCH_NAME with
  | Raised _ => []
  | Normal true =>
      git_checkout repository STABLE_BRANCH_NAME ::
      if stops (piped_outcome drv (git_checkout repository STABLE_BRANCH_NAME))
      then []
      else [git_merge repository hashcode]
  | Normal false =>
      git_checkout repository hashcode ::
      if stops (piped_outcome drv (git_checkout repository hashcode))
      then []
      else [git_checkout_b repository STABLE_BRANCH_NAME]
  end.

(** ** Outcomes *)

(** The four operations that produce an outcome, each with its invocation. *)
Definition operations (verbose : bool) (repository arg : pystr)
  : list (prog bool * invocation) :=
  [(clone verbose repository arg, git_clone arg);
   (checkout_branch verbose repository arg, git_checkout repository arg);
   (create_branch_from_position verbose repository arg, git_checkout_b repository arg);
   (merge_commit_into_current_branch verbose repository arg, git_merge repository arg)].

(** ** What a program does to the dictionary

    [follows drv P Q p]: on every path [p] can take when the processes answer
    as [drv] says, whatever the dictionary holds, each dictionary action
    satisfies [P] and each value returned satisfies [Q]. *)

Inductive action : Type :=
| AContains (key : pystr)
| ASetEmpty (key : pystr)
| AAppend (key line : pystr).

Inductive follows (drv : driver) (P : action -> Prop) (A : Type) (Q : A -> Prop)
  : prog A -> Prop :=
| follows_ret a : Q a -> follows drv P Q (Ret a)
| follows_raise e : follows drv P Q (Raise e)
| follows_exec argv cwd k :
    follows drv P Q (k (drv argv cwd)) -> follows drv P Q (Exec argv cwd k)
| follows_contains key k :
    P (AContains key) -> (forall b, follows drv P Q (k b)) ->
    follows drv P Q (Contains key k)
| follows_set key k :
    P (ASetEmpty key) -> follows drv P Q k -> follows drv P Q (SetEmpty key k)
| follows_append key line k :
    P (AAppend key line) -> follows drv P Q k -> follows drv P Q (Append key line k).

#[local] Hint Constructors follows : core.

Definition any {A : Type} (_ : A) : Prop := True.

(** ** Invariants of the pool *)

Definition worker_follows (drv : driver) (P : action -> Prop)
    (w : option (Data * prog unit)) : Prop :=
  match w with
  | Some (_, p) => follows drv P any p
  | None => True
  end.

Definition pool_ok (drv : driver) (P : action -> Prop) (Inv : error_list -> Prop)
    (s : pool) : Prop :=
  Inv (shared s) /\ Forall (worker_follows drv P) (workers s).

(** ** No newline in a stored line *)

Definition no_newline (s : pystr) : Prop := ~ In 10%N s.

Definition appends_no_newline (a : action) : Prop :=
  match a with
  | AAppend _ line => no_newline line
  | _ => True
  end.

Definition lines_no_newline (log : error_list) : Prop :=
  Forall (fun item => Forall no_newline (snd item)) log.

(** ** A key is created only to receive a line *)

(** Every [SetEmpty] of the program is directly followed by an [Append] under
    the same key, whatever the processes answer. *)
Inductive creates_to_append (A : Type) : prog A -> Prop :=
| cta_ret a : creates_to_append (Ret a)
| cta_raise e : creates_to_append (Raise e)
| cta_exec argv cwd k :
    (forall r, creates_to_append (k r)) -> creates_to_append (Exec argv cwd k)
| cta_contains key k :
    (forall b, creates_to_append (k b)) -> creates_to_append (Contains key k)
| cta_set key line k :
    creates_to_append k -> creates_to_append (SetEmpty key (Append key line k))
| cta_append key line k :
    creates_to_append k -> creates_to_append (Append key line k).

#[local] Hint Constructors creates_to_append : core.

Definition worker_creates_to_append (w : option (Data * prog unit)) : Prop :=
  match w with
  | Some (_, p) => creates_to_append p
  | None => True
  end.

(** A key whose sequence is still empty belongs to a worker that is about to
    append to it. *)
Definition empty_keys_pending (s : pool) : Prop :=
  forall key,
    dict_get key (shared s) = Some [] ->
    exists i data line k,
      nth_error (workers s) i = Some (Some (data, Append key line k)).

Definition keys_ok (s : pool) : Prop :=
  Forall worker_creates_to_append (workers s) /\ empty_keys_pending s.

(** ** The rows of the table *)

Definition row_of (longest_key longest_value : nat) (name message : pystr)
  : list pystr :=
  if eqb (remove NEWLINE message) []
  then []
  else [data_row longest_key longest_value name (remove NEWLINE message)].

(** The rows of one repository: its name on the row of the first line, blank
    on the others, and the separator after them. *)
Definition repo_block (longest_key longest_value : nat)
    (item : pystr * list pystr) : list pystr :=
  match snd item with
  | [] => []
  | first :: others =>
      row_of longest_key longest_value (fst item) first
      ++ flat_map (row_of longest_key longest_value []) others
  end
  ++ [border Box.LJ Box.X Box.RJ longest_key longest_value].

(** ** Tasks with distinct names do not interfere *)

Definition log_of {A : Type} (x : result A * error_list * list invocation)
  : error_list := snd (fst x).

Definition key_of (a : action) : pystr :=
  match a with
  | AContains key | ASetEmpty key | AAppend key _ => key
  end.

Definition touches (repository : pystr) (a : action) : Prop :=
  key_of a = repository.

(** One action of a task, seen from the task: either it goes on, with a new
    dictionary and the invocation it made, or it is over. *)
Definition thread_step (drv : driver) (p : prog unit) (log : error_list)
  : (prog unit * error_list * list invocation) + result unit :=
  match p with
  | Ret a => inr (Normal a)
  | Raise e => inr (Raised e)
  | Exec argv cwd k => inl (k (drv argv cwd), log, [(argv, cwd)])
  | Contains key k => inl (k (dict_in key log), log, [])
  | SetEmpty key k => inl (k, dict_set key [] log, [])
  | Append key line k =>
      match dict_append key line log with
      | Some log' => inl (k, log', [])
      | None => inr (Raised (KeyError key))
      end
  end.

(** The dictionary a task leaves when it runs alone, from the empty one. *)
Definition alone (verbose : bool) (drv : driver) (data : Data) : error_list :=
  log_of (run drv (submit verbose data) [] []).

Definition running (s : pool) (i : nat) (data : Data) (p : prog unit) : Prop :=
  nth_error (workers s) i = Some (Some (data, p)).

Definition settled (verbose : bool) (drv : driver) (s : pool) (data : Data) : Prop :=
  dict_get (get_repository data) (shared s)
  = dict_get (get_repository data) (alone verbose drv data)
  /\ ~ In (get_repository data) (map get_repository (queue s))
  /\ (forall i d p, running s i d p -> get_repository d <> get_repository data).

Record isolated (verbose : bool) (drv : driver) (repositories : list Data)
    (s : pool) : Prop := mkIsolated {
  iso_queue : NoDup (map get_repository (queue s));
  iso_workers :
    forall i j di pi dj pj,
      running s i di pi -> running s j dj pj ->
      get_repository di = get_repository dj -> i = j;
  iso_apart :
    forall i d p,
      running s i d p -> ~ In (get_repository d) (map get_repository (queue s));
  iso_fresh :
    forall data, In data (queue s) -> dict_get (get_repository data) (shared s) = None;
  iso_task :
    forall i d p,
      running s i d p ->
      follows drv (touches (get_repository d)) any p
      /\ dict_get (get_repository d) (log_of (run drv p (shared s) []))
         = dict_get (get_repository d) (alone verbose drv d);
  iso_all :
    forall data,
      In data repositories ->
      In data (queue s) \/ (exists i p, running s i data p) \/ settled verbose drv s data
}.

(** ** A sample batch

    Three rows with distinct names on the two workers, [verbose] on: the clone
    of [a] fails, [b] has the stable branch and is merged, [c] has not and gets
    it created. *)

Definition ascii_bytes (s : string) : bytes := list_byte_of_string s.

Definition LF : string := String (ascii_of_nat 10) EmptyString.

Definition sample_driver : driver := fun argv cwd =>
  let sub := nth 1 argv [] in
  if eqb sub (lit "clone") then
    if eqb (nth 2 argv []) (lit "bad")
    then mkCompleted [] (ascii_bytes ("fatal: repository 'bad' not found" ++ LF)) 128
    else mkCompleted [] (ascii_bytes ("Cloning into 'x'..." ++ LF)) 0
  else if eqb sub (lit "branch") then
    if eqb cwd (repo_dir (lit "b"))
    then mkCompleted
           (ascii_bytes ("* main" ++ LF ++ "  remotes/origin/autotest-stable" ++ LF))
           [] 0
    else mkCompleted (ascii_bytes ("* main" ++ LF)) [] 0
  else if eqb sub (lit "merge") then
    mkCompleted
      (ascii_bytes ("Merge made by the 'ort' strategy." ++ LF ++ " 1 file changed" ++ LF))
      [] 0
  else mkCompleted [] (ascii_bytes ("Switched" ++ LF)) 0.

Definition sample_rows : list Data :=
  [mkData (lit "a") (lit "bad") (lit "h1");
   mkData (lit "b") (lit "ub") (lit "h2");
   mkData (lit "c") (lit "uc") (lit "h3")].

(** The workers alternate until the second one is done. *)
Definition sample_schedule : list nat :=
  concat (repeat [0; 1] 13) ++ repeat 0 6.

Definition reached (o : option pool) : pool :=
  match o with
  | Some s => s
  | None => start []
  end.

Definition sample_final : pool :=
  reached (run_schedule true sample_driver sample_schedule (start sample_rows)).

Definition quiet_driver : driver := fun _ _ => mkCompleted [] [] 0.

Definition quiet_schedule : list nat :=
  concat (repeat [0; 1] 6) ++ repeat 0 6.

Definition quiet_final : pool :=
  reached (run_schedule false quiet_driver quiet_schedule (start sample_rows)).

(** ** Concurrent appends *)

(** The line [line] is one of those the task of [data] appends when it runs
    alone. *)
Definition appended_by (verbose : bool) (drv : driver) (data : Data)
    (line : pystr) : Prop :=
  exists lines,
    dict_get (get_repository data) (alone verbose drv data) = Some lines
    /\ In line lines.

(** The claim that appends are atomic, by its consequence: whatever the
    schedule, every line a task appends is in the final dictionary, under the
    task's repository. *)
Definition no_line_lost (verbose : bool) (drv : driver)
    (repositories : list Data) : Prop :=
  forall schedule s data line,
    run_schedule verbose drv schedule (start repositories) = Some s ->
    all_done s = true ->
    In data repositories ->
    appended_by verbose drv data line ->
    exists lines,
      dict_get (get_repository data) (shared s) = Some lines /\ In line lines.

(** Two rows of the report carry the same name and both clones fail, each
    with its own message. *)
Definition failing_clones : driver := fun argv cwd =>
  if eqb (nth 1 argv []) (lit "clone") then
    if eqb (nth 2 argv []) (lit "u1") then mkCompleted [] (ascii_bytes "e1") 128
    else if eqb (nth 2 argv []) (lit "u2") then mkCompleted [] (ascii_bytes "e2") 128
    else mkCompleted [] [] 0
  else mkCompleted [] [] 0.

Definition same_name_rows : list Data :=
  [mkData (lit "r") (lit "u1") (lit "h");
   mkData (lit "r") (lit "u2") (lit "h");
   mkData (lit "q") (lit "u3") (lit "h")].

(** Both workers test the key before either creates it; the second creation
    discards the line the first worker has appended. *)
Definition racing_schedule : list nat :=
  [0; 1; 0; 0; 1; 1; 0; 0; 1; 1; 0; 1; 0; 0; 0; 0; 0; 0].

Definition raced : pool :=
  reached (run_schedule false failing_clones racing_schedule (start same_name_rows)).

(** ** The existence check *)

(** The text format of [git branch -a], which the script searches: one branch
    per line, a two-character marker ("* " on the current branch, two spaces
    otherwise) and then the name, which for a remote-tracking branch is
    "remotes/<remote>/<branch>". *)
Fixpoint split_on (c : N) (s : pystr) : list pystr :=
  match s with
  | [] => [[]]
  | x :: t =>
      if (x =? c)%N then [] :: split_on c t
      else match split_on c t with
           | l :: ls => (x :: l) :: ls
           | [] => [[x]]
           end
  end.

Definition listed_names (out : pystr) : list pystr :=
  map (skipn 2) (split_on 10%N out).

Definition names_branch (branch_name entry : pystr) : Prop :=
  entry = branch_name
  \/ exists remote, entry = lit "remotes/" ++ remote ++ lit "/" ++ branch_name.

(** A branch, local or remote-tracking, with exactly that name is listed. *)
Definition branch_listed (branch_name out : pystr) : Prop :=
  exists entry, In entry (listed_names out) /\ names_branch branch_name entry.

(** The listing of a working copy that has a branch [autotest-stable-old] and
    no branch [autotest-stable]. *)
Definition old_branch_listing : driver := fun _ _ =>
  mkCompleted (ascii_bytes ("* main" ++ LF ++ "  autotest-stable-old" ++ LF)) [] 0.

(** ** When the listing itself fails *)

(** In the working copy of [a] every [git] command fails with "not a git
    repository"; [b] is in order. *)
Definition broken_listing : driver := fun argv cwd =>
  let sub := nth 1 argv [] in
  if eqb sub (lit "clone")
  then mkCompleted [] (ascii_bytes ("Cloning into 'x'..." ++ LF)) 0
  else if eqb cwd (repo_dir (lit "a"))
       then mkCompleted [] (ascii_bytes ("fatal: not a git repository" ++ LF)) 128
       else if eqb sub (lit "branch")
            then mkCompleted (ascii_bytes ("* main" ++ LF)) [] 0
            else mkCompleted [] [] 0.

Definition broken_rows : list Data :=
  [mkData (lit "a") (lit "ua") (lit "h1"); mkData (lit "b") (lit "ub") (lit "h2")].

Definition broken_schedule : list nat := concat (repeat [0; 1] 6) ++ [0; 0].

(** The listing of [a] is not valid UTF-8: the task raises, the exception
    stays in its future, and the batch goes on to print its table. *)
Definition undecodable_listing : driver := fun argv cwd =>
  if eqb (nth 1 argv []) (lit "branch") && eqb cwd (repo_dir (lit "a"))
  then mkCompleted [xff] [] 0
  else mkCompleted [] [] 0.

(** ** Column widths *)

(** Two rows whose clones fail, one with a short message and one with a long
    one. *)
Definition short_and_long : driver := fun argv cwd =>
  if eqb (nth 2 argv []) (lit "u1") then mkCompleted [] (ascii_bytes "ab") 128
  else mkCompleted [] (ascii_bytes "abcdefghij") 128.

Definition two_rows : list Data :=
  [mkData (lit "svc-a") (lit "u1") (lit "h1");
   mkData (lit "service-b") (lit "u2") (lit "h2")].

Definition two_schedule : list nat := concat (repeat [0; 1] 6).

(** ** Loading the report

    [load_csv], on the rows that [csv.reader] yields (a list of fields per
    line of the file): every row gives a [Data] of its first three fields,
    then the first [Data], the header's, is popped.  [IndexError] is what
    [row[2]] raises on a short row and [pop(0)] on an empty list. *)

Inductive loaded : Type :=
| Loaded (repositories : list Data)
| IndexError.

Fixpoint read_rows (buildreport : list (list pystr)) (repositories : list Data)
  : option (list Data) :=
  match buildreport with
  | [] => Some repositories
  | row :: rest =>
      match row with
      | f0 :: f1 :: f2 :: _ => read_rows rest (repositories ++ [mkData f0 f1 f2])
      | _ => None
      end
  end.

Definition load_csv (buildreport : list (list pystr)) : loaded :=
  match read_rows buildreport [] with
  | Some (_ :: repositories) => Loaded repositories
  | Some [] => IndexError
  | None => IndexError
  end.

(** ** More about one run of [handle_branch] *)

(** The line [store_error] appends for an outcome when [verbose] is on. *)
Definition line_of (outcome : Error) : pystr :=
  if is_error outcome
  then RED ++ get_message outcome ++ RESET
  else get_message outcome.

(** [later] extends [earlier]: every sequence of [earlier] is still there, with
    lines added at its end only under [repository]; no other key is new; and
    the keys of [earlier] come first, in their order, followed by
    [repository] when it is new. *)
Definition extends (repository : pystr) (earlier later : error_list) : Prop :=
  (forall k,
      match dict_get k earlier with
      | Some lines =>
          exists added,
            dict_get k later = Some (lines ++ added)
            /\ (k <> repository -> added = [])
      | None => k <> repository -> dict_get k later = None
      end)
  /\ map fst later
     = if negb (dict_in repository earlier) && dict_in repository later
       then map fst earlier ++ [repository]
       else map fst earlier.

(** [ready repository known p]: [p] raises nothing but [UnicodeDecodeError],
    touches no key but [repository], and appends under it only after it has
    seen the key or created it; [known] says that the key is already there. *)
Inductive ready (repository : pystr) (A : Type) : bool -> prog A -> Prop :=
| ready_ret known a : ready repository known (Ret a)
| ready_raise known : ready repository known (Raise UnicodeDecodeError)
| ready_exec known argv cwd k :
    (forall r, ready repository known (k r)) ->
    ready repository known (Exec argv cwd k)
| ready_contains known k :
    ready repository true (k true) -> ready repository known (k false) ->
    ready repository known (Contains repository k)
| ready_set known k :
    ready repository true k -> ready repository known (SetEmpty repository k)
| ready_append line k :
    ready repository true k -> ready repository true (Append repository line k).

#[local] Hint Constructors ready : core.

Definition mild (A : Type) (r : result A) : Prop :=
  match r with
  | Normal _ => True
  | Raised e => e = UnicodeDecodeError
  end.

(** ** More about the table *)

(** A line that gets a row: it is not empty once its newlines are out. *)
Definition printable (message : pystr) : bool :=
  negb (eqb (remove NEWLINE message) []).

Definition table_width (longest_key longest_value : nat) : nat :=
  longest_key + longest_value + 7.

(** ** More about the pool *)

Definition busy (ws : list (option (Data * prog unit))) : nat :=
  length (filter (fun w => negb (idle w)) ws).

Definition worker_ready (log : error_list) (w : option (Data * prog unit)) : Prop :=
  match w with
  | Some (data, p) =>
      ready (get_repository data) (dict_in (get_repository data) log) p
  | None => True
  end.

Definition worker_of_report (drv : driver) (repositories : list Data)
    (w : option (Data * prog unit)) : Prop :=
  match w with
  | Some (data, p) =>
      In data repositories /\ follows drv (touches (get_repository data)) any p
  | None => True
  end.

(** A report whose rows all succeed, for the examples. *)
Definition plain_log : error_list :=
  [(lit "svc-a", [lit "Cloning into 'svc-a'..."; lit "Switched"]);
   (lit "service-b", [lit "Cloning into 'service-b'..."])].

(** * Properties *)

(** ** Strings *)

Lemma eqb_eq a b : eqb a b = true <-> a = b.
Proof. unfold eqb. destruct (list_eq_dec N.eq_dec a b); split; congruence. Qed.

Lemma eqb_refl a : eqb a a = true.
Proof. apply eqb_eq. reflexivity. Qed.

Lemma eqb_neq a b : eqb a b = false <-> a <> b.
Proof. unfold eqb. destruct (list_eq_dec N.eq_dec a b); split; congruence. Qed.

(** ** The dictionary *)

Lemma dict_get_set k k' v d :
  dict_get k (dict_set k' v d) = if eqb k k' then Some v else dict_get k d.
Proof.
  induction d as [|[k0 v0] r IH]; simpl.
  - reflexivity.
  - destruct (eqb k' k0) eqn:E0; simpl.
    + apply eqb_eq in E0. subst k0.
      destruct (eqb k k'); reflexivity.
    + rewrite IH. destruct (eqb k k0) eqn:E1; [|reflexivity].
      apply eqb_eq in E1. subst k0.
      destruct (eqb k k') eqn:E2; [|reflexivity].
      apply eqb_eq in E2. subst k'. rewrite eqb_refl in E0. discriminate.
Qed.

Lemma dict_set_absent k v d :
  dict_get k d = None -> dict_set k v d = d ++ [(k, v)].
Proof.
  induction d as [|[k0 v0] r IH]; simpl; [reflexivity|].
  destruct (eqb k k0); [discriminate|].
  intros H. rewrite IH by assumption. reflexivity.
Qed.

Lemma dict_set_set k v1 v2 d :
  dict_set k v2 (dict_set k v1 d) = dict_set k v2 d.
Proof.
  induction d as [|[k0 v0] r IH]; simpl.
  - rewrite eqb_refl. reflexivity.
  - destruct (eqb k k0) eqn:E; simpl; rewrite E; [reflexivity|].
    rewrite IH. reflexivity.
Qed.

Lemma dict_in_get k d : dict_in k d = true <-> dict_get k d <> None.
Proof. unfold dict_in. destruct (dict_get k d); split; congruence. Qed.

Lemma dict_get_In k v d : dict_get k d = Some v -> In (k, v) d.
Proof.
  induction d as [|[k0 v0] r IH]; simpl; [discriminate|].
  destruct (eqb k k0) eqn:E.
  - apply eqb_eq in E. intros [= ->]. left. congruence.
  - intros H. right. auto.
Qed.

Lemma In_dict_get k v d :
  NoDup (map fst d) -> In (k, v) d -> dict_get k d = Some v.
Proof.
  induction d as [|[k0 v0] r IH]; simpl; [tauto|].
  intros Hnd [H|H]; inversion Hnd as [|? ? Hnot Hnd']; subst.
  - injection H as -> ->. rewrite eqb_refl. reflexivity.
  - destruct (eqb k k0) eqn:E.
    + apply eqb_eq in E. subst k0. exfalso. apply Hnot.
      change k with (fst (k, v)). apply in_map. assumption.
    + auto.
Qed.

Lemma dict_set_keys k v d :
  map fst (dict_set k v d)
  = if dict_in k d then map fst d else map fst d ++ [k].
Proof.
  unfold dict_in. induction d as [|[k0 v0] r IH]; simpl; [reflexivity|].
  destruct (eqb k k0) eqn:E; simpl; [reflexivity|].
  rewrite IH. destruct (dict_get k r); reflexivity.
Qed.

Lemma dict_get_not_in_keys k d : dict_get k d = None -> ~ In k (map fst d).
Proof.
  induction d as [|[k0 v0] r IH]; simpl; [tauto|].
  destruct (eqb k k0) eqn:E; [discriminate|].
  apply eqb_neq in E. intros H [H1|H1]; [congruence|]. exact (IH H H1).
Qed.

Lemma dict_set_NoDup k v d :
  NoDup (map fst d) -> NoDup (map fst (dict_set k v d)).
Proof.
  intros H. rewrite dict_set_keys. unfold dict_in.
  destruct (dict_get k d) eqn:E; [assumption|].
  apply NoDup_app; [assumption|repeat constructor; simpl; tauto|].
  intros x Hx [<-|[]]. exact (dict_get_not_in_keys _ _ E Hx).
Qed.

(** ** Running programs *)

Lemma run_bind (A B : Type) drv (p : prog A) (f : A -> prog B) log tr :
  run drv (bind p f) log tr
  = match run drv p log tr with
    | (Normal a, log', tr') => run drv (f a) log' tr'
    | (Raised e, log', tr') => (Raised e, log', tr')
    end.
Proof.
  revert log tr.
  induction p as [a|e|argv cwd k IH|key k IH|key k IH|key line k IH];
    intros log tr; simpl; auto.
  destruct (dict_append key line log); auto.
Qed.

Lemma record_line_get repository line log :
  dict_get repository (record_line repository line log)
  = Some (match dict_get repository log with
          | Some lines => lines
          | None => []
          end ++ [line]).
Proof.
  unfold record_line. destruct (dict_get repository log) eqn:E.
  - rewrite dict_get_set, eqb_refl. reflexivity.
  - rewrite <- (dict_set_absent _ [line] _ E), dict_get_set, eqb_refl.
    reflexivity.
Qed.

Lemma record_line_other repository line log k :
  k <> repository ->
  dict_get k (record_line repository line log) = dict_get k log.
Proof.
  intros Hk. apply eqb_neq in Hk. unfold record_line.
  destruct (dict_get repository log) eqn:E.
  - rewrite dict_get_set, Hk. reflexivity.
  - rewrite <- (dict_set_absent _ [line] _ E), dict_get_set, Hk. reflexivity.
Qed.

Lemma run_record drv repository line log tr (A : Type) (k : prog A) :
  run drv (present <- Contains repository Ret ;;
           (if negb present then SetEmpty repository (Ret tt) else Ret tt) ;;
           Append repository line (Ret tt) ;; k) log tr
  = run drv k (record_line repository line log) tr.
Proof.
  simpl. unfold dict_in, record_line, dict_append.
  destruct (dict_get repository log) eqn:E; simpl.
  - unfold dict_append. rewrite E. reflexivity.
  - unfold dict_append. rewrite dict_get_set, eqb_refl, dict_set_set.
    rewrite (dict_set_absent _ _ _ E). reflexivity.
Qed.

Lemma run_store_error verbose drv repository error log tr :
  run drv (store_error verbose repository error) log tr
  = (Normal tt, recorded verbose repository error log, tr).
Proof.
  unfold store_error, recorded.
  destruct (is_error error), verbose; simpl; try reflexivity.
  all: unfold dict_in, record_line, dict_append;
    destruct (dict_get repository log) eqn:E; simpl;
    unfold dict_append;
    rewrite ?E, ?dict_get_set, ?eqb_refl, ?dict_set_set; simpl;
    rewrite ?(dict_set_absent _ _ _ E); reflexivity.
Qed.

(** ** The five invocations and what each operation does with the answer *)

Lemma run_operation verbose drv repository (r : result Error) log tr :
  run drv (error <- lift r ;;
           store_error verbose repository error ;;
           Ret (is_error error)) log tr
  = match r with
    | Normal e => (Normal (is_error e), recorded verbose repository e log, tr)
    | Raised x => (Raised x, log, tr)
    end.
Proof.
  destruct r as [e|x]; simpl; [|reflexivity].
  rewrite run_bind, run_store_error. reflexivity.
Qed.

Lemma run_clone verbose drv repository url log tr :
  run drv (clone verbose repository url) log tr
  = after_operation verbose repository (piped_outcome drv (git_clone url))
      (git_clone url) log tr.
Proof.
  unfold clone, popen_communicate, after_operation, piped_outcome, answer.
  cbn [bind run fst snd git_clone]. rewrite run_operation.
  destruct (Error_init _ _); reflexivity.
Qed.

Lemma run_checkout_branch verbose drv repository ref log tr :
  run drv (checkout_branch verbose repository ref) log tr
  = after_operation verbose repository (piped_outcome drv (git_checkout repository ref))
      (git_checkout repository ref) log tr.
Proof.
  unfold checkout_branch, popen_communicate, after_operation, piped_outcome, answer.
  cbn [bind run fst snd git_checkout]. rewrite run_operation.
  destruct (Error_init _ _); reflexivity.
Qed.

Lemma created_message code :
  match encode (lit "Branch Created Successfully") with
  | Some b => lift (Error_init (Some b) code)
  | None => Raise UnicodeEncodeError
  end = Ret (mkError (lit "Branch Created Successfully") (negb (code =? 0)%Z)).
Proof. reflexivity. Qed.

Lemma run_create_branch verbose drv repository name log tr :
  run drv (create_branch_from_position verbose repository name) log tr
  = after_operation verbose repository
      (create_outcome drv (git_checkout_b repository name))
      (git_checkout_b repository name) log tr.
Proof.
  unfold create_branch_from_position, popen_communicate, after_operation,
    create_outcome, answer.
  cbn [bind run fst snd git_checkout_b].
  rewrite created_message.
  destruct (negb (returncode _ =? 0)%Z) eqn:E.
  - rewrite run_operation. reflexivity.
  - cbn [bind]. rewrite run_bind, run_store_error. reflexivity.
Qed.

Lemma run_merge verbose drv repository hashcode log tr :
  run drv (merge_commit_into_current_branch verbose repository hashcode) log tr
  = after_operation verbose repository
      (merge_outcome drv (git_merge repository hashcode))
      (git_merge repository hashcode) log tr.
Proof.
  unfold merge_commit_into_current_branch, popen_communicate, after_operation,
    merge_outcome, answer.
  cbn [bind run fst snd git_merge].
  destruct (negb (returncode _ =? 0)%Z); rewrite run_operation;
    destruct (Error_init _ _); reflexivity.
Qed.

Lemma run_branch_exists drv repository name log tr :
  run drv (branch_exists repository name) log tr
  = (branch_found drv repository name, log, tr ++ [git_branch_a repository]).
Proof.
  unfold branch_exists, popen_communicate, branch_found, answer.
  cbn [bind run fst snd git_branch_a truthy].
  destruct (decode _); reflexivity.
Qed.

Lemma Error_init_flag message code e :
  Error_init message code = Normal e -> is_error e = negb (code =? 0)%Z.
Proof.
  unfold Error_init. destruct message as [[|b m]|]; try (intros [= <-]; reflexivity).
  destruct (decode (b :: m)); [|discriminate]. intros [= <-]. reflexivity.
Qed.

(** ** The order of operations in [handle_branch] *)

Lemma run_handle_branch_calls verbose drv url repository hashcode log :
  snd (run drv (handle_branch verbose url repository hashcode) log [])
  = expected_calls drv url repository hashcode.
Proof.
  unfold handle_branch, expected_calls.
  rewrite run_bind, run_clone. unfold after_operation.
  destruct (piped_outcome drv (git_clone url)) as [e|x]; cbn [stops]; [|reflexivity].
  destruct (is_error e); [reflexivity|].
  rewrite run_bind, run_branch_exists.
  destruct (branch_found drv repository STABLE_BRANCH_NAME) as [[|]|x];
    [| |reflexivity].
  - rewrite run_bind, run_checkout_branch. unfold after_operation.
    destruct (piped_outcome drv (git_checkout repository STABLE_BRANCH_NAME))
      as [e1|x]; cbn [stops]; [|reflexivity].
    destruct (is_error e1); [reflexivity|].
    rewrite run_bind, run_merge. unfold after_operation.
    destruct (merge_outcome drv (git_merge repository hashcode)) as [e2|x];
      [destruct (is_error e2)|]; reflexivity.
  - rewrite run_bind, run_checkout_branch. unfold after_operation.
    destruct (piped_outcome drv (git_checkout repository hashcode))
      as [e1|x]; cbn [stops]; [|reflexivity].
    destruct (is_error e1); [reflexivity|].
    rewrite run_bind, run_create_branch. unfold after_operation.
    destruct (create_outcome drv (git_checkout_b repository STABLE_BRANCH_NAME))
      as [e2|x]; [destruct (is_error e2)|]; reflexivity.
Qed.

Lemma piped_outcome_continues drv i :
  stops (piped_outcome drv i) = false -> returncode (answer drv i) = 0%Z.
Proof.
  unfold piped_outcome, stops.
  destruct (Error_init _ _) as [e|x] eqn:E; [|discriminate].
  apply Error_init_flag in E. rewrite E.
  destruct (returncode (answer drv i) =? 0)%Z eqn:E0; [|discriminate].
  intros _. apply Z.eqb_eq. assumption.
Qed.

Ltac split_calls H pre :=
  destruct pre as [|? [|? [|? [|? [|? ?]]]]]; cbn [app] in H;
  try discriminate H; injection H as H; subst.


(** ** Outcomes *)

Lemma flag_iff code : negb (code =? 0)%Z = true <-> code <> 0%Z.
Proof.
  destruct (code =? 0)%Z eqn:E; simpl.
  - apply Z.eqb_eq in E. split; [discriminate|congruence].
  - apply Z.eqb_neq in E. split; auto.
Qed.

Lemma after_operation_flag verbose repository outcome i log tr failed log' tr' code :
  (forall e, outcome = Normal e -> is_error e = negb (code =? 0)%Z) ->
  after_operation verbose repository outcome i log tr = (Normal failed, log', tr') ->
  failed = true <-> code <> 0%Z.
Proof.
  intros He. unfold after_operation. destruct outcome as [e|x]; [|discriminate].
  intros [= <- _ _]. rewrite (He e eq_refl). apply flag_iff.
Qed.

(** C4.  Whenever one of the four operations returns, and whenever the
    outcome constructor returns, the failed flag is true exactly when the exit
    status is not zero, whatever the diagnostic text is. *)
Theorem failed_iff_nonzero_exit verbose drv repository arg log tr
    op i failed log' tr' message code e :
  In (op, i) (operations verbose repository arg) ->
  run drv op log tr = (Normal failed, log', tr') ->
  Error_init message code = Normal e ->
  (failed = true <-> returncode (answer drv i) <> 0%Z)
  /\ (is_error e = true <-> code <> 0%Z).
Proof.
  intros Hin Hrun He. split.
  - destruct Hin as [H|[H|[H|[H|[]]]]]; injection H as <- <-.
    + rewrite run_clone in Hrun.
      eapply after_operation_flag; [|exact Hrun].
      intros e'. apply Error_init_flag.
    + rewrite run_checkout_branch in Hrun.
      eapply after_operation_flag; [|exact Hrun].
      intros e'. apply Error_init_flag.
    + rewrite run_create_branch in Hrun.
      eapply after_operation_flag; [|exact Hrun].
      intros e'. unfold create_outcome.
      destruct (negb (returncode _ =? 0)%Z) eqn:E.
      * intros H. apply Error_init_flag in H. congruence.
      * intros [= <-]. reflexivity.
    + rewrite run_merge in Hrun.
      eapply after_operation_flag; [|exact Hrun].
      intros e'. unfold merge_outcome.
      destruct (negb (returncode _ =? 0)%Z) eqn:E;
        intros H; apply Error_init_flag in H; congruence.
  - rewrite (Error_init_flag _ _ He). apply flag_iff.
Qed.

(** A stream that decodes never keeps an operation from returning. *)
Lemma piped_outcome_returns drv i :
  decode (proc_stderr (answer drv i)) <> None ->
  exists e, piped_outcome drv i = Normal e.
Proof.
  unfold piped_outcome, Error_init. intros H.
  destruct (proc_stderr (answer drv i)) as [|b m]; [eauto|].
  destruct (decode (b :: m)); [eauto|congruence].
Qed.

(** ** The recorder *)

(** C5.  [store_error] always returns; it leaves every other repository's
    sequence alone; a failed outcome's message is appended between the error
    markers to the repository's sequence (the empty one when the key is new);
    an outcome that is not failed is appended as it is when [verbose] is set,
    and otherwise the dictionary is unchanged. *)
Theorem store_error_contract verbose drv repository outcome log tr :
  let before := match dict_get repository log with
                | Some lines => lines
                | None => []
                end in
  let after := snd (fst (run drv (store_error verbose repository outcome) log tr)) in
  run drv (store_error verbose repository outcome) log tr
  = (Normal tt, recorded verbose repository outcome log, tr)
  /\ (forall k, k <> repository -> dict_get k after = dict_get k log)
  /\ (if is_error outcome
      then dict_get repository after
           = Some (before ++ [RED ++ get_message outcome ++ RESET])
      else if verbose
           then dict_get repository after = Some (before ++ [get_message outcome])
           else after = log).
Proof.
  cbv zeta. rewrite run_store_error. cbn [fst snd]. split; [reflexivity|].
  unfold recorded. split.
  - intros k Hk.
    destruct (is_error outcome); [|destruct verbose];
      try apply record_line_other; auto.
  - destruct (is_error outcome); [|destruct verbose];
      try apply record_line_get; reflexivity.
Qed.

(** ** What a program does to the dictionary *)

Lemma follows_bind drv P (A B : Type) (Q : A -> Prop) (R : B -> Prop)
    (p : prog A) (f : A -> prog B) :
  follows drv P Q p ->
  (forall a, Q a -> follows drv P R (f a)) ->
  follows drv P R (bind p f).
Proof.
  intros Hp Hf. induction Hp; simpl; auto.
Qed.

Lemma follows_weaken drv P (A : Type) (Q R : A -> Prop) (p : prog A) :
  follows drv P Q p -> (forall a, Q a -> R a) -> follows drv P R p.
Proof. intros Hp HQR. induction Hp; auto. Qed.

(** What [store_error] does: it touches the repository's key only, and the
    only lines it appends are the message, bare or between the markers. *)
Lemma follows_store_error drv (P : action -> Prop) verbose repository error :
  ((is_error error || verbose = true) ->
   P (AContains repository) /\ P (ASetEmpty repository)) ->
  (is_error error = true ->
   P (AAppend repository (RED ++ get_message error ++ RESET))) ->
  (is_error error = false -> verbose = true ->
   P (AAppend repository (get_message error))) ->
  follows drv P any (store_error verbose repository error).
Proof.
  unfold store_error. intros Hk He Hv.
  destruct (is_error error) eqn:E; [|destruct verbose eqn:V]; simpl.
  - destruct Hk as [Hc Hs]; [reflexivity|].
    apply follows_contains; [assumption|].
    intros [|]; simpl; repeat constructor; auto.
  - destruct Hk as [Hc Hs]; [reflexivity|].
    apply follows_contains; [assumption|].
    intros [|]; simpl; repeat constructor; auto.
  - repeat constructor.
Qed.

(** An operation records the outcome it is given and nothing else. *)
Lemma follows_operation drv (P : action -> Prop) (Q : Error -> Prop) verbose
    repository (p : prog Error) :
  follows drv P Q p ->
  (forall e, Q e -> follows drv P any (store_error verbose repository e)) ->
  follows drv P any
    (error <- p ;; store_error verbose repository error ;; Ret (is_error error)).
Proof.
  intros Hp Hs. eapply follows_bind; [exact Hp|].
  intros e He. eapply follows_bind; [apply Hs; exact He|].
  intros; constructor; exact I.
Qed.

Lemma follows_lift drv P (A : Type) (Q : A -> Prop) (r : result A) :
  (forall a, r = Normal a -> Q a) -> follows drv P Q (lift r).
Proof. destruct r; simpl; auto. Qed.

Section Handle.

Variable drv : driver.

Variable P : action -> Prop.

Variable verbose : bool.

Variable repository : pystr.

(** [Q] holds of every outcome the operations of this repository can build
    when the processes answer as [drv] says. *)
Variable Q : Error -> Prop.

Hypothesis Q_piped :
  forall argv cwd e,
    Error_init (Some (proc_stderr (drv argv cwd))) (returncode (drv argv cwd))
    = Normal e -> Q e.

Hypothesis Q_failed :
  forall argv cwd e,
    (returncode (drv argv cwd) =? 0)%Z = false ->
    Error_init None (returncode (drv argv cwd)) = Normal e -> Q e.

Hypothesis Q_merged :
  forall argv cwd e,
    (returncode (drv argv cwd) =? 0)%Z = true ->
    Error_init (Some (proc_stdout (drv argv cwd))) (returncode (drv argv cwd))
    = Normal e -> Q e.

Hypothesis Q_created :
  forall argv cwd,
    (returncode (drv argv cwd) =? 0)%Z = true ->
    Q (mkError (lit "Branch Created Successfully") false).

Hypothesis Q_store :
  forall e, Q e -> follows drv P any (store_error verbose repository e).

Lemma follows_clone url : follows drv P any (clone verbose repository url).
Proof.
  unfold clone, popen_communicate. cbn [bind]. apply follows_exec. cbn [bind].
  apply follows_operation with (Q := Q); [|exact Q_store].
  apply follows_lift. apply Q_piped.
Qed.

Lemma follows_checkout_branch ref :
  follows drv P any (checkout_branch verbose repository ref).
Proof.
  unfold checkout_branch, popen_communicate. cbn [bind]. apply follows_exec.
  cbn [bind].
  apply follows_operation with (Q := Q); [|exact Q_store].
  apply follows_lift. apply Q_piped.
Qed.

Lemma follows_create_branch name :
  follows drv P any (create_branch_from_position verbose repository name).
Proof.
  unfold create_branch_from_position, popen_communicate. cbn [bind].
  apply follows_exec. cbn [bind]. rewrite created_message.
  apply follows_operation with (Q := Q); [|exact Q_store].
  destruct (returncode _ =? 0)%Z eqn:E; cbn [negb].
  - constructor. eapply Q_created. exact E.
  - apply follows_lift. intros e. apply Q_failed. exact E.
Qed.

Lemma follows_merge hashcode :
  follows drv P any (merge_commit_into_current_branch verbose repository hashcode).
Proof.
  unfold merge_commit_into_current_branch, popen_communicate. cbn [bind].
  apply follows_exec. cbn [bind].
  apply follows_operation with (Q := Q); [|exact Q_store].
  destruct (returncode _ =? 0)%Z eqn:E; cbn [negb].
  - apply follows_lift. intros e. apply Q_merged. exact E.
  - apply follows_lift. intros e. apply Q_failed. exact E.
Qed.

Lemma follows_branch_exists name :
  follows drv P any (branch_exists repository name).
Proof.
  unfold branch_exists, popen_communicate. cbn [bind]. apply follows_exec.
  cbn [bind truthy]. destruct (decode _); constructor. exact I.
Qed.

Lemma follows_handle_branch url hashcode :
  follows drv P any (handle_branch verbose url repository hashcode).
Proof.
  unfold handle_branch.
  eapply follows_bind; [apply follows_clone|]. intros [|] _; [constructor; exact I|].
  eapply follows_bind; [apply follows_branch_exists|]. intros [|] _.
  - eapply follows_bind; [apply follows_checkout_branch|].
    intros [|] _; [constructor; exact I|].
    eapply follows_bind; [apply follows_merge|].
    intros [|] _; constructor; exact I.
  - eapply follows_bind; [apply follows_checkout_branch|].
    intros [|] _; [constructor; exact I|].
    eapply follows_bind; [apply follows_create_branch|].
    intros [|] _; constructor; exact I.
Qed.

End Handle.

(** ** Invariants of the pool *)

Lemma Forall_set_nth (A : Type) (R : A -> Prop) i x l :
  Forall R l -> R x -> Forall R (set_nth i x l).
Proof.
  intros Hl Hx. revert i. induction Hl as [|h t Hh Ht IH]; intros [|i]; simpl;
    constructor; auto.
Qed.

Lemma nth_error_Forall (A : Type) (R : A -> Prop) i x l :
  Forall R l -> nth_error l i = Some x -> R x.
Proof.
  intros Hl Hn. apply nth_error_In in Hn.
  rewrite Forall_forall in Hl. auto.
Qed.

Lemma dict_set_Forall (R : pystr * list pystr -> Prop) k v d :
  Forall R d -> (forall k', R (k', v)) -> Forall R (dict_set k v d).
Proof.
  intros Hd Hv. induction Hd as [|[k0 v0] r H0 Hr IH]; simpl.
  - repeat constructor. apply Hv.
  - destruct (eqb k k0); constructor; auto.
Qed.

Section PoolInvariant.

Variable verbose : bool.

Variable drv : driver.

Variable P : action -> Prop.

Variable Inv : error_list -> Prop.

Hypothesis Inv_set :
  forall key log, Inv log -> P (ASetEmpty key) -> Inv (dict_set key [] log).

Hypothesis Inv_append :
  forall key line log log',
    Inv log -> P (AAppend key line) ->
    dict_append key line log = Some log' -> Inv log'.

Hypothesis tasks_follow :
  forall data, follows drv P any (submit verbose data).

Lemma pool_step_ok i s s' :
  pool_ok drv P Inv s -> pool_step verbose drv i s = Some s' -> pool_ok drv P Inv s'.
Proof.
  intros [HI HW]. unfold pool_step.
  destruct (nth_error (workers s) i) as [[[data p]|]|] eqn:En; [| |discriminate].
  - pose proof En as Hp. eapply nth_error_Forall in Hp; [|exact HW]. simpl in Hp.
    inversion Hp; subst;
      try (destruct (dict_append key line (shared s)) as [log'|] eqn:Ea);
      intros [= <-]; split; simpl; eauto;
      apply Forall_set_nth; simpl; auto.
  - destruct (queue s) as [|data rest]; [discriminate|].
    intros [= <-]. split; simpl; auto.
    apply Forall_set_nth; simpl; auto.
Qed.

Lemma run_schedule_ok schedule s s' :
  pool_ok drv P Inv s -> run_schedule verbose drv schedule s = Some s' -> pool_ok drv P Inv s'.
Proof.
  revert s. induction schedule as [|i rest IH]; simpl; intros s Hs.
  - intros [= <-]. assumption.
  - destruct (pool_step verbose drv i s) as [s1|] eqn:E; [|discriminate].
    apply IH. eapply pool_step_ok; eauto.
Qed.

Lemma start_ok repositories : Inv [] -> pool_ok drv P Inv (start repositories).
Proof.
  intros H. split; simpl; auto.
  repeat constructor.
Qed.

Lemma reachable_Inv repositories schedule s :
  Inv [] ->
  run_schedule verbose drv schedule (start repositories) = Some s ->
  Inv (shared s).
Proof.
  intros H0 Hs. eapply run_schedule_ok in Hs; [apply Hs|apply start_ok; exact H0].
Qed.

End PoolInvariant.

(** ** No newline in a stored line *)

Lemma remove_newline s : no_newline (remove NEWLINE s).
Proof.
  unfold no_newline, remove, NEWLINE.
  induction s as [|c t IH]; cbn [remove_aux prefixb length Nat.sub]; [simpl; tauto|].
  destruct (10 =? c)%N eqn:E; cbn [andb]; [assumption|].
  apply N.eqb_neq in E. intros [H|H]; [congruence|tauto].
Qed.

Lemma Error_init_no_newline message code e :
  Error_init message code = Normal e -> no_newline (get_message e).
Proof.
  unfold Error_init. destruct message as [[|b m]|];
    try (intros [= <-]; simpl; unfold no_newline; simpl; tauto).
  destruct (decode (b :: m)); [|discriminate].
  intros [= <-]. apply remove_newline.
Qed.

Lemma no_newline_marked s : no_newline s -> no_newline (RED ++ s ++ RESET).
Proof.
  unfold no_newline. intros H Hin.
  apply in_app_or in Hin. destruct Hin as [Hin|Hin].
  - simpl in Hin. repeat (destruct Hin as [Hin|Hin]; [discriminate|]). exact Hin.
  - apply in_app_or in Hin. destruct Hin as [Hin|Hin]; [tauto|].
    simpl in Hin. repeat (destruct Hin as [Hin|Hin]; [discriminate|]). exact Hin.
Qed.

Lemma handle_branch_no_newline verbose drv data :
  follows drv appends_no_newline any (submit verbose data).
Proof.
  unfold submit.
  apply follows_handle_branch with (Q := fun e => no_newline (get_message e)).
  - intros argv cwd e. apply Error_init_no_newline.
  - intros argv cwd e _. apply Error_init_no_newline.
  - intros argv cwd e _. apply Error_init_no_newline.
  - intros argv cwd _. unfold no_newline. simpl.
    intros H. repeat (destruct H as [H|H]; [discriminate|]). exact H.
  - intros e He. apply follows_store_error; cbn [appends_no_newline]; auto.
    intros _. apply no_newline_marked. exact He.
Qed.

Lemma lines_no_newline_reachable verbose drv repositories schedule s :
  run_schedule verbose drv schedule (start repositories) = Some s ->
  lines_no_newline (shared s).
Proof.
  apply reachable_Inv with (P := appends_no_newline).
  - intros key log H _. apply dict_set_Forall; [exact H|]. intros; constructor.
  - intros key line log log' H Hl. unfold dict_append.
    destruct (dict_get key log) as [v|] eqn:E; [|discriminate].
    intros [= <-]. apply dict_set_Forall; [exact H|].
    intros k'. simpl. apply Forall_app. split; [|repeat constructor; exact Hl].
    apply dict_get_In in E. unfold lines_no_newline in H.
    rewrite Forall_forall in H. exact (H _ E).
  - apply handle_branch_no_newline.
  - constructor.
Qed.

(** C9.  In every state the pool can reach, under every schedule, every line
    stored in the dictionary is free of newline characters; and the outcome
    constructor, when it returns, gives a message without newline, the empty
    one when the text is absent. *)
Theorem stored_lines_have_no_newline verbose drv repositories schedule s
    key lines line message code e :
  run_schedule verbose drv schedule (start repositories) = Some s ->
  In (key, lines) (shared s) ->
  In line lines ->
  Error_init message code = Normal e ->
  ~ In 10%N line
  /\ ~ In 10%N (get_message e)
  /\ (message = None -> get_message e = []).
Proof.
  intros Hs Hk Hl He. split; [|split].
  - apply lines_no_newline_reachable in Hs. unfold lines_no_newline in Hs.
    rewrite Forall_forall in Hs. specialize (Hs _ Hk). simpl in Hs.
    rewrite Forall_forall in Hs. exact (Hs _ Hl).
  - exact (Error_init_no_newline _ _ He).
  - intros ->. simpl in He. injection He as <-. reflexivity.
Qed.

(** ** A key is created only to receive a line *)

Lemma cta_bind (A B : Type) (p : prog A) (f : A -> prog B) :
  creates_to_append p -> (forall a, creates_to_append (f a)) ->
  creates_to_append (bind p f).
Proof. intros Hp Hf. induction Hp; simpl; auto. Qed.

Lemma cta_store_error verbose repository error :
  creates_to_append (store_error verbose repository error).
Proof.
  unfold store_error.
  destruct (is_error error || verbose); [|auto].
  destruct (is_error error); simpl; constructor; intros [|]; simpl; auto.
Qed.

Lemma cta_lift (A : Type) (r : result A) : creates_to_append (lift r).
Proof. destruct r; simpl; auto. Qed.

Lemma cta_operation verbose repository (p : prog Error) :
  creates_to_append p ->
  creates_to_append
    (error <- p ;; store_error verbose repository error ;; Ret (is_error error)).
Proof.
  intros Hp. apply cta_bind; [exact Hp|]. intros e.
  apply cta_bind; [apply cta_store_error|auto].
Qed.

Lemma cta_handle_branch verbose url repository hashcode :
  creates_to_append (handle_branch verbose url repository hashcode).
Proof.
  assert (Hclone : creates_to_append (clone verbose repository url)).
  { unfold clone, popen_communicate. cbn [bind]. constructor. intros r.
    cbn [bind]. apply cta_operation, cta_lift. }
  assert (Hco : forall ref, creates_to_append (checkout_branch verbose repository ref)).
  { intros ref. unfold checkout_branch, popen_communicate. cbn [bind].
    constructor. intros r. cbn [bind]. apply cta_operation, cta_lift. }
  assert (Hcr : forall name,
             creates_to_append (create_branch_from_position verbose repository name)).
  { intros name. unfold create_branch_from_position, popen_communicate.
    cbn [bind]. constructor. intros r. cbn [bind]. rewrite created_message.
    apply cta_operation. destruct (negb _); auto using cta_lift. }
  assert (Hm : forall h,
             creates_to_append (merge_commit_into_current_branch verbose repository h)).
  { intros h. unfold merge_commit_into_current_branch, popen_communicate.
    cbn [bind]. constructor. intros r. cbn [bind].
    apply cta_operation. destruct (negb _); apply cta_lift. }
  assert (Hb : forall name, creates_to_append (branch_exists repository name)).
  { intros name. unfold branch_exists, popen_communicate. cbn [bind].
    constructor. intros r. cbn [bind truthy]. destruct (decode _); auto. }
  unfold handle_branch.
  apply cta_bind; [exact Hclone|]. intros [|]; [auto|].
  apply cta_bind; [apply Hb|]. intros [|].
  - apply cta_bind; [apply Hco|]. intros [|]; [auto|].
    apply cta_bind; [apply Hm|]. intros [|]; auto.
  - apply cta_bind; [apply Hco|]. intros [|]; [auto|].
    apply cta_bind; [apply Hcr|]. intros [|]; auto.
Qed.

Lemma nth_error_set_nth_same (A : Type) i (x y : A) l :
  nth_error l i = Some y -> nth_error (set_nth i x l) i = Some x.
Proof.
  revert i. induction l as [|h t IH]; intros [|i]; simpl; try discriminate; auto.
Qed.

Lemma nth_error_set_nth_other (A : Type) i j (x : A) l :
  i <> j -> nth_error (set_nth i x l) j = nth_error l j.
Proof.
  revert i j. induction l as [|h t IH]; intros [|i] [|j] H; simpl; auto.
  congruence.
Qed.

Section KeysHaveLines.

Variable verbose : bool.

Variable drv : driver.

Lemma pending_elsewhere s i w' log' q f c :
  (forall key data line k,
      nth_error (workers s) i <> Some (Some (data, Append key line k))
      \/ dict_get key log' <> Some []) ->
  (forall key, dict_get key log' = Some [] ->
               dict_get key (shared s) = Some []
               \/ exists data line k, w' = Some (data, Append key line k)) ->
  (exists w, nth_error (workers s) i = Some w) ->
  empty_keys_pending s ->
  empty_keys_pending (mkPool q (set_nth i w' (workers s)) f log' c).
Proof.
  intros Hnot Hlog [w Hw] Hpend key Hkey. simpl in *.
  destruct (Hlog key Hkey) as [Hold|(data & line & k & ->)].
  - destruct (Hpend key Hold) as (j & data & line & k & Hj).
    exists j, data, line, k.
    rewrite nth_error_set_nth_other; [exact Hj|].
    intros <-. destruct (Hnot key data line k); congruence.
  - exists i, data, line, k. eapply nth_error_set_nth_same. exact Hw.
Qed.

Lemma pool_step_keys_ok i s s' :
  keys_ok s -> pool_step verbose drv i s = Some s' -> keys_ok s'.
Proof.
  intros [HW HP]. unfold pool_step.
  destruct (nth_error (workers s) i) as [[[data p]|]|] eqn:En; [| |discriminate].
  - pose proof En as Hp. eapply nth_error_Forall in Hp; [|exact HW]. simpl in Hp.
    inversion Hp; subst.
    + intros [= <-]. split; [apply Forall_set_nth; simpl; auto|].
      apply pending_elsewhere; eauto.
      intros; left; congruence.
    + intros [= <-]. split; [apply Forall_set_nth; simpl; auto|].
      apply pending_elsewhere; eauto.
      intros; left; congruence.
    + intros [= <-]. split; [apply Forall_set_nth; simpl; auto|].
      apply pending_elsewhere; eauto.
      intros; left; congruence.
    + intros [= <-]. split; [apply Forall_set_nth; simpl; auto|].
      apply pending_elsewhere; eauto.
      intros; left; congruence.
    + intros [= <-]. split; [apply Forall_set_nth; simpl; auto|].
      apply pending_elsewhere; eauto.
      * intros; left; congruence.
      * intros key0. rewrite dict_get_set.
        destruct (eqb key0 key) eqn:E; [|auto].
        apply eqb_eq in E. subst key0. intros _. right. eauto.
    + destruct (dict_append key line (shared s)) as [log'|] eqn:Ea.
      * intros [= <-]. split; [apply Forall_set_nth; simpl; auto|].
        unfold dict_append in Ea.
        destruct (dict_get key (shared s)) as [v|] eqn:Eg; [|discriminate].
        injection Ea as <-.
        apply pending_elsewhere; eauto.
        -- intros key0 d l k0.
           destruct (eqb key0 key) eqn:E.
           ++ right. rewrite dict_get_set, E. intros [= Hnil].
              destruct v; discriminate.
           ++ left. apply eqb_neq in E. congruence.
        -- intros key0. rewrite dict_get_set.
           destruct (eqb key0 key); [|auto].
           intros [= Hnil]. destruct v; discriminate.
      * intros [= <-]. split; [apply Forall_set_nth; simpl; auto|].
        unfold dict_append in Ea.
        destruct (dict_get key (shared s)) as [v|] eqn:Eg; [discriminate|].
        apply pending_elsewhere; eauto.
        intros key0 d l k0.
        destruct (eqb key0 key) eqn:E.
        -- right. apply eqb_eq in E. subst key0. congruence.
        -- left. apply eqb_neq in E. congruence.
  - destruct (queue s) as [|data rest]; [discriminate|].
    intros [= <-]. split.
    + apply Forall_set_nth; [assumption|]. simpl. apply cta_handle_branch.
    + apply pending_elsewhere; eauto.
      intros; left; congruence.
Qed.

Lemma run_schedule_keys_ok schedule s s' :
  keys_ok s -> run_schedule verbose drv schedule s = Some s' -> keys_ok s'.
Proof.
  revert s. induction schedule as [|i rest IH]; simpl; intros s Hs.
  - intros [= <-]. assumption.
  - destruct (pool_step verbose drv i s) as [s1|] eqn:E; [|discriminate].
    apply IH. eapply pool_step_keys_ok; eauto.
Qed.

Lemma final_keys_have_lines repositories schedule s key :
  run_schedule verbose drv schedule (start repositories) = Some s ->
  all_done s = true ->
  dict_get key (shared s) <> Some [].
Proof.
  intros Hs Hdone Hkey.
  eapply run_schedule_keys_ok in Hs.
  - destruct Hs as [_ Hpend].
    destruct (Hpend key Hkey) as (i & data & line & k & Hi).
    unfold all_done in Hdone. destruct (queue s); [|discriminate].
    rewrite forallb_forall in Hdone.
    apply nth_error_In in Hi. apply Hdone in Hi. discriminate.
  - split; [repeat constructor|]. intros k. simpl. discriminate.
Qed.

End KeysHaveLines.

Lemma follows_anything drv (A : Type) (p : prog A) :
  follows drv (fun _ => True) any p.
Proof. induction p; constructor; auto; exact I. Qed.

Lemma reachable_keys_NoDup verbose drv repositories schedule s :
  run_schedule verbose drv schedule (start repositories) = Some s ->
  NoDup (map fst (shared s)).
Proof.
  apply reachable_Inv
    with (P := fun _ => True) (Inv := fun log => NoDup (map fst log)).
  - intros key log H _. apply dict_set_NoDup. exact H.
  - intros key line log log' H _. unfold dict_append.
    destruct (dict_get key log); [|discriminate].
    intros [= <-]. apply dict_set_NoDup. exact H.
  - intros data. apply follows_anything.
  - constructor.
Qed.

(** C10.  When the pool has finished, under every schedule, every key of the
    dictionary maps to a sequence with at least one line; [store_error] never
    leaves a key with an empty sequence behind; and a failed outcome whose
    message is empty still appends one line, the two markers, under its
    repository's key. *)
Theorem every_key_has_a_line verbose drv repositories schedule s key lines
    repository outcome log tr :
  run_schedule verbose drv schedule (start repositories) = Some s ->
  all_done s = true ->
  In (key, lines) (shared s) ->
  lines <> []
  /\ ((forall k, dict_get k log <> Some []) ->
      forall k,
        dict_get k (snd (fst (run drv (store_error verbose repository outcome) log tr)))
        <> Some [])
  /\ dict_get repository
       (snd (fst (run drv (store_error verbose repository (mkError [] true)) log tr)))
     = Some (match dict_get repository log with
             | Some before => before
             | None => []
             end ++ [RED ++ RESET]).
Proof.
  intros Hs Hdone Hin. split; [|split].
  - intros ->.
    apply (final_keys_have_lines verbose drv repositories schedule key Hs Hdone).
    apply In_dict_get; [|exact Hin].
    eapply reachable_keys_NoDup. exact Hs.
  - intros Hlog k. rewrite run_store_error. cbn [fst snd]. unfold recorded.
    assert (Hline : forall line, dict_get k (record_line repository line log) <> Some []).
    { intros line. destruct (eqb k repository) eqn:E.
      - apply eqb_eq in E. subst k. rewrite record_line_get.
        intros [= H]. destruct (dict_get repository log) as [[|? ?]|]; discriminate.
      - apply eqb_neq in E. rewrite record_line_other by exact E. apply Hlog. }
    destruct (is_error outcome); [apply Hline|].
    destruct verbose; [apply Hline|apply Hlog].
  - rewrite run_store_error. cbn [fst snd]. unfold recorded. cbn [is_error get_message].
    apply record_line_get.
Qed.

(** ** The rows of the table *)

Lemma print_message_rest lk lv repo messages printed :
  snd (fold_left (print_message lk lv repo) messages (false, printed))
  = printed ++ flat_map (row_of lk lv []) messages.
Proof.
  revert printed.
  induction messages as [|m ms IH]; intros printed;
    cbn [fold_left print_message flat_map snd].
  - rewrite app_nil_r. reflexivity.
  - unfold row_of at 1. destruct (eqb (remove NEWLINE m) []); rewrite IH.
    + reflexivity.
    + rewrite <- app_assoc. reflexivity.
Qed.

Lemma print_repo_block lk lv printed item :
  print_repo lk lv printed item = printed ++ repo_block lk lv item.
Proof.
  destruct item as [repo messages]. unfold print_repo, repo_block. cbn [fst snd].
  destruct messages as [|m ms]; [reflexivity|].
  cbn [fold_left print_message]. rewrite print_message_rest.
  replace (if eqb (remove NEWLINE m) []
           then printed
           else printed ++ [data_row lk lv repo (remove NEWLINE m)])
    with (printed ++ row_of lk lv repo m)
    by (unfold row_of; destruct (eqb _ _); [rewrite app_nil_r|]; reflexivity).
  rewrite <- !app_assoc. reflexivity.
Qed.

Lemma fold_print_repo lk lv log printed :
  fold_left (print_repo lk lv) log printed
  = printed ++ flat_map (repo_block lk lv) log.
Proof.
  revert printed. induction log as [|item r IH]; intros printed; simpl.
  - rewrite app_nil_r. reflexivity.
  - rewrite IH, print_repo_block, <- app_assoc. reflexivity.
Qed.

Lemma display_results_blocks log :
  display_results log
  = [border Box.TL Box.TJ Box.TR (fst (measure log)) (snd (measure log));
     header_row (fst (measure log)) (snd (measure log));
     border Box.LJ Box.X Box.RJ (fst (measure log)) (snd (measure log))]
    ++ flat_map (repo_block (fst (measure log)) (snd (measure log))) log
    ++ [border Box.BL Box.BJ Box.BR (fst (measure log)) (snd (measure log))].
Proof.
  unfold display_results. destruct (measure log) as [lk lv]. cbn [fst snd].
  rewrite fold_print_repo, <- app_assoc. reflexivity.
Qed.

(** With [verbose] off and every process exiting with status zero, no task
    touches the dictionary. *)
Lemma silent_task drv data :
  (forall argv cwd, returncode (drv argv cwd) = 0%Z) ->
  follows drv (fun _ => False) any (submit false data).
Proof.
  intros Hzero. unfold submit.
  apply follows_handle_branch with (Q := fun e => is_error e = false).
  - intros argv cwd e H. apply Error_init_flag in H. rewrite H, Hzero. reflexivity.
  - intros argv cwd e H. rewrite Hzero in H. discriminate.
  - intros argv cwd e _ H. apply Error_init_flag in H. rewrite H, Hzero. reflexivity.
  - reflexivity.
  - intros e He. apply follows_store_error; rewrite He; simpl; discriminate.
Qed.

Lemma silent_batch drv repositories schedule s :
  (forall argv cwd, returncode (drv argv cwd) = 0%Z) ->
  run_schedule false drv schedule (start repositories) = Some s ->
  shared s = [].
Proof.
  intros Hzero.
  apply reachable_Inv with (P := fun _ => False) (Inv := fun log => log = []).
  - intros key log _ [].
  - intros key line log log' _ [].
  - intros data. apply silent_task. exact Hzero.
  - reflexivity.
Qed.

(** C8.  When the pool has finished, under every schedule: a key of the
    dictionary has at least one recorded line, so a repository without any
    recorded line is not a key; the table is the three header lines, one block
    per key of the dictionary in order, and the closing border, so it has no
    row for a repository that is not a key; and with [verbose] off and every
    process exiting with status zero the dictionary is empty and the table is
    the three header lines followed by the closing border. *)
Theorem unrecorded_repository_has_no_row verbose drv repositories schedule s :
  run_schedule verbose drv schedule (start repositories) = Some s ->
  all_done s = true ->
  (forall key, In key (map fst (shared s)) ->
               exists line lines, dict_get key (shared s) = Some (line :: lines))
  /\ display_results (shared s)
     = [border Box.TL Box.TJ Box.TR (fst (measure (shared s))) (snd (measure (shared s)));
        header_row (fst (measure (shared s))) (snd (measure (shared s)));
        border Box.LJ Box.X Box.RJ (fst (measure (shared s))) (snd (measure (shared s)))]
       ++ flat_map (repo_block (fst (measure (shared s))) (snd (measure (shared s))))
                   (shared s)
       ++ [border Box.BL Box.BJ Box.BR (fst (measure (shared s))) (snd (measure (shared s)))]
  /\ (verbose = false ->
      (forall argv cwd, returncode (drv argv cwd) = 0%Z) ->
      shared s = []
      /\ display_results (shared s)
         = [border Box.TL Box.TJ Box.TR 0 0; header_row 0 0;
            border Box.LJ Box.X Box.RJ 0 0; border Box.BL Box.BJ Box.BR 0 0]).
Proof.
  intros Hs Hdone. split; [|split].
  - intros key Hkey.
    destruct (dict_get key (shared s)) as [[|line lines]|] eqn:E.
    + exfalso.
      exact (final_keys_have_lines verbose drv repositories schedule key Hs Hdone E).
    + eauto.
    + exfalso. exact (dict_get_not_in_keys _ _ E Hkey).
  - apply display_results_blocks.
  - intros -> Hzero.
    rewrite (silent_batch drv repositories schedule Hzero Hs).
    split; reflexivity.
Qed.

(** ** Tasks with distinct names do not interfere *)

Lemma handle_branch_touches verbose drv data :
  follows drv (touches (get_repository data)) any (submit verbose data).
Proof.
  unfold submit.
  apply follows_handle_branch with (Q := fun _ => True); auto.
  intros e _. apply follows_store_error; intros; try split; reflexivity.
Qed.

Lemma pool_step_thread verbose drv i s :
  pool_step verbose drv i s
  = match nth_error (workers s) i with
    | None => None
    | Some None =>
        match queue s with
        | [] => None
        | data :: rest =>
            Some (mkPool rest (set_nth i (Some (data, submit verbose data)) (workers s))
                         (futures s) (shared s) (calls s))
        end
    | Some (Some (data, p)) =>
        match thread_step drv p (shared s) with
        | inl (p', log', made) =>
            Some (mkPool (queue s) (set_nth i (Some (data, p')) (workers s))
                         (futures s) log' (calls s ++ made))
        | inr r =>
            Some (mkPool (queue s) (set_nth i None (workers s))
                         (futures s ++ [r]) (shared s) (calls s))
        end
    end.
Proof.
  unfold pool_step.
  destruct (nth_error (workers s) i) as [[[data p]|]|]; try reflexivity.
  destruct p; simpl; rewrite ?app_nil_r; try reflexivity.
  destruct (dict_append key line (shared s)); rewrite ?app_nil_r; reflexivity.
Qed.

Lemma run_log_trace (A : Type) drv (p : prog A) log tr1 tr2 :
  log_of (run drv p log tr1) = log_of (run drv p log tr2).
Proof.
  revert log tr1 tr2.
  induction p as [a|e|argv cwd k IH|key k IH|key k IH|key line k IH];
    intros log tr1 tr2; simpl; auto.
  destruct (dict_append key line log); auto.
Qed.

Lemma thread_step_run drv p log p' log' made tr :
  thread_step drv p log = inl (p', log', made) ->
  log_of (run drv p log tr) = log_of (run drv p' log' tr).
Proof.
  destruct p; simpl; try discriminate.
  - intros [= <- <- <-]. apply run_log_trace.
  - intros [= <- <- <-]. reflexivity.
  - intros [= <- <- <-]. reflexivity.
  - destruct (dict_append key line log); [|discriminate].
    intros [= <- <- <-]. reflexivity.
Qed.

Lemma thread_step_done drv p log r tr :
  thread_step drv p log = inr r -> log_of (run drv p log tr) = log.
Proof.
  destruct p; simpl; try discriminate; try reflexivity.
  destruct (dict_append key line log); [discriminate|reflexivity].
Qed.

Lemma thread_step_follows drv P p log p' log' made :
  follows drv P any p ->
  thread_step drv p log = inl (p', log', made) ->
  follows drv P any p'.
Proof.
  intros Hp. inversion Hp; subst; simpl; try discriminate.
  - intros [= <- <- <-]. assumption.
  - intros [= <- <- <-]. auto.
  - intros [= <- <- <-]. assumption.
  - destruct (dict_append key line log); [|discriminate].
    intros [= <- <- <-]. assumption.
Qed.

(** A task that touches one key leaves every other key as it was. *)
Lemma thread_step_frame drv repository p log p' log' made key :
  follows drv (touches repository) any p ->
  thread_step drv p log = inl (p', log', made) ->
  key <> repository ->
  dict_get key log' = dict_get key log.
Proof.
  intros Hp Hstep Hkey. apply eqb_neq in Hkey.
  inversion Hp; subst; simpl in Hstep; try discriminate.
  - injection Hstep as <- <- <-. reflexivity.
  - injection Hstep as <- <- <-. reflexivity.
  - injection Hstep as <- <- <-.
    match goal with H : touches _ _ |- _ => unfold touches in H; simpl in H; subst end.
    rewrite dict_get_set, Hkey. reflexivity.
  - unfold dict_append in Hstep.
    destruct (dict_get key0 log) as [v|]; [|discriminate].
    injection Hstep as <- <- <-.
    match goal with H : touches _ _ |- _ => unfold touches in H; simpl in H; subst end.
    rewrite dict_get_set, Hkey. reflexivity.
Qed.

(** What a task leaves under its own key depends on the dictionary only
    through that key. *)
Lemma run_local drv repository (A : Type) (Q : A -> Prop) (p : prog A) :
  follows drv (touches repository) Q p ->
  forall log1 log2 tr1 tr2,
    dict_get repository log1 = dict_get repository log2 ->
    dict_get repository (log_of (run drv p log1 tr1))
    = dict_get repository (log_of (run drv p log2 tr2)).
Proof.
  induction 1 as [a Ha|e|argv cwd k Hk IH|key k HP Hk IH|key k HP Hk IH
                 |key line k HP Hk IH];
    intros log1 log2 tr1 tr2 Hlog; simpl.
  - exact Hlog.
  - exact Hlog.
  - apply IH. exact Hlog.
  - unfold touches in HP. simpl in HP. subst key.
    unfold dict_in. rewrite Hlog. apply IH. exact Hlog.
  - unfold touches in HP. simpl in HP. subst key.
    apply IH. rewrite !dict_get_set, eqb_refl. reflexivity.
  - unfold touches in HP. simpl in HP. subst key.
    unfold dict_append. rewrite Hlog.
    destruct (dict_get repository log2) as [v|] eqn:E2;
      [|unfold log_of; simpl; congruence].
    apply IH. rewrite !dict_get_set, eqb_refl. reflexivity.
Qed.

Lemma nth_error_set_nth_inv (A : Type) i j (w x : A) l :
  nth_error (set_nth i w l) j = Some x ->
  (j = i /\ x = w) \/ (j <> i /\ nth_error l j = Some x).
Proof.
  revert i j. induction l as [|h t IH]; intros [|i] [|j]; simpl;
    try discriminate.
  - intros [= <-]. left. split; reflexivity.
  - intros H. right. split; [discriminate|exact H].
  - intros H. right. split; [discriminate|exact H].
  - intros H. destruct (IH _ _ H) as [[-> ->]|[Hne Hn]]; [left|right]; split;
      auto.
Qed.

Section Isolation.

Variable verbose : bool.

Variable drv : driver.

Variable repositories : list Data.

Lemma isolated_take s i data rest :
  isolated verbose drv repositories s ->
  nth_error (workers s) i = Some None ->
  queue s = data :: rest ->
  isolated verbose drv repositories (mkPool rest (set_nth i (Some (data, submit verbose data)) (workers s))
                   (futures s) (shared s) (calls s)).
Proof.
  intros [Hq Hw Ha Hf Ht Hall] Hi Hqueue. unfold settled in Hall.
  rewrite Hqueue in Hq, Ha, Hf, Hall.
  simpl in Hq. inversion Hq as [|? ? Hnotin Hq']; subst.
  assert (Hrun : forall a d p,
             running (mkPool rest (set_nth i (Some (data, submit verbose data)) (workers s))
                             (futures s) (shared s) (calls s)) a d p ->
             (a = i /\ d = data /\ p = submit verbose data)
             \/ (a <> i /\ running s a d p)).
  { unfold running. simpl. intros a d p H.
    apply nth_error_set_nth_inv in H. destruct H as [[-> [= -> ->]]|[Hne H]]; auto. }
  constructor; simpl.
  - exact Hq'.
  - intros a b da pa db pb H1 H2 Hname.
    apply Hrun in H1. apply Hrun in H2.
    destruct H1 as [(-> & -> & ->)|[Hna H1]], H2 as [(-> & -> & ->)|[Hnb H2]];
      auto.
    + exfalso. apply (Ha _ _ _ H2). simpl. left. exact Hname.
    + exfalso. apply (Ha _ _ _ H1). simpl. left. symmetry. exact Hname.
    + eapply Hw; eauto.
  - intros a d p H. apply Hrun in H.
    destruct H as [(-> & -> & ->)|[Hna H]]; [exact Hnotin|].
    intros Hin. apply (Ha _ _ _ H). simpl. right. exact Hin.
  - intros d Hin. apply Hf. right. exact Hin.
  - intros a d p H. apply Hrun in H.
    destruct H as [(-> & -> & ->)|[Hna H]]; [|apply (Ht _ _ _ H)].
    split; [apply handle_branch_touches|].
    unfold alone. eapply run_local; [apply handle_branch_touches|].
    rewrite Hf by (left; reflexivity). reflexivity.
  - intros d Hd. destruct (Hall d Hd) as [[<-|Hin]|[(j & p & Hj)|(Hs1 & Hs2 & Hs3)]].
    + right. left. exists i, (submit verbose data). unfold running. simpl.
      eapply nth_error_set_nth_same. exact Hi.
    + left. exact Hin.
    + right. left. exists j, p. unfold running in *. simpl.
      rewrite nth_error_set_nth_other; [exact Hj|]. congruence.
    + right. right. split; [exact Hs1|]. simpl in Hs2. split; [tauto|].
      intros a d' p H. apply Hrun in H.
      destruct H as [(-> & -> & ->)|[Hna H]]; [|eapply Hs3; eauto].
      intros Hname. apply Hs2. left. exact Hname.
Qed.

Lemma isolated_finish s i data p r :
  isolated verbose drv repositories s ->
  running s i data p ->
  thread_step drv p (shared s) = inr r ->
  isolated verbose drv repositories (mkPool (queue s) (set_nth i None (workers s)) (futures s ++ [r])
                   (shared s) (calls s)).
Proof.
  intros [Hq Hw Ha Hf Ht Hall] Hi Hstep.
  assert (Hrun : forall a d x,
             running (mkPool (queue s) (set_nth i None (workers s)) (futures s ++ [r])
                             (shared s) (calls s)) a d x ->
             a <> i /\ running s a d x).
  { unfold running. simpl. intros a d x H.
    apply nth_error_set_nth_inv in H. destruct H as [[_ [=]]|H]; exact H. }
  constructor; simpl.
  - exact Hq.
  - intros a b da pa db pb H1 H2. apply Hrun in H1. apply Hrun in H2.
    eapply Hw; [apply H1|apply H2].
  - intros a d x H. apply Hrun in H. eapply Ha. apply H.
  - exact Hf.
  - intros a d x H. apply Hrun in H. eapply Ht. apply H.
  - intros d Hd. destruct (Hall d Hd) as [Hin|[(j & x & Hj)|(Hs1 & Hs2 & Hs3)]].
    + left. exact Hin.
    + destruct (Nat.eq_dec j i) as [->|Hne].
      * unfold running in Hi, Hj. rewrite Hi in Hj. injection Hj as <- <-.
        right. right. split; [|split].
        -- simpl. destruct (Ht _ _ _ Hi) as [_ <-].
           rewrite (thread_step_done _ _ _ [] Hstep). reflexivity.
        -- simpl. eapply Ha. exact Hi.
        -- intros a d' x' H. apply Hrun in H. destruct H as [Hna H].
           intros Hname. apply Hna. eapply Hw; eauto.
      * right. left. exists j, x. unfold running in *. simpl.
        rewrite nth_error_set_nth_other; [exact Hj|]. congruence.
    + right. right. split; [exact Hs1|]. split; [exact Hs2|].
      intros a d' x' H. apply Hrun in H. eapply Hs3. apply H.
Qed.

Lemma isolated_advance s i data p p' log' made :
  isolated verbose drv repositories s ->
  running s i data p ->
  thread_step drv p (shared s) = inl (p', log', made) ->
  isolated verbose drv repositories (mkPool (queue s) (set_nth i (Some (data, p')) (workers s)) (futures s)
                   log' (calls s ++ made)).
Proof.
  intros [Hq Hw Ha Hf Ht Hall] Hi Hstep.
  destruct (Ht _ _ _ Hi) as [Hfol Hrunp].
  assert (Hframe : forall key, key <> get_repository data ->
                               dict_get key log' = dict_get key (shared s)).
  { intros key Hkey. eapply thread_step_frame; eauto. }
  assert (Hrun : forall a d x,
             running (mkPool (queue s) (set_nth i (Some (data, p')) (workers s))
                             (futures s) log' (calls s ++ made)) a d x ->
             (a = i /\ d = data /\ x = p') \/ (a <> i /\ running s a d x)).
  { unfold running. simpl. intros a d x H.
    apply nth_error_set_nth_inv in H. destruct H as [[-> [= -> ->]]|[Hne H]]; auto. }
  constructor; simpl.
  - exact Hq.
  - intros a b da pa db pb H1 H2 Hname.
    apply Hrun in H1. apply Hrun in H2.
    destruct H1 as [(-> & -> & ->)|[Hna H1]], H2 as [(-> & -> & ->)|[Hnb H2]];
      auto.
    + eapply Hw; eauto.
    + eapply Hw; eauto.
    + eapply Hw; eauto.
  - intros a d x H. apply Hrun in H.
    destruct H as [(-> & -> & ->)|[Hna H]]; eapply Ha; eauto.
  - intros d Hin. rewrite Hframe; [apply Hf; exact Hin|].
    intros Hname. apply (Ha _ _ _ Hi). rewrite <- Hname.
    apply in_map. exact Hin.
  - intros a d x H. apply Hrun in H.
    destruct H as [(-> & -> & ->)|[Hna H]].
    + split; [eapply thread_step_follows; eauto|].
      rewrite <- Hrunp. f_equal. symmetry. eapply thread_step_run. exact Hstep.
    + destruct (Ht _ _ _ H) as [Hfd Hrd]. split; [exact Hfd|].
      rewrite <- Hrd. eapply run_local; [exact Hfd|].
      apply Hframe. intros Hname. apply Hna. eapply Hw; eauto.
  - intros d Hd. destruct (Hall d Hd) as [Hin|[(j & x & Hj)|(Hs1 & Hs2 & Hs3)]].
    + left. exact Hin.
    + right. left. destruct (Nat.eq_dec j i) as [->|Hne].
      * unfold running in Hi, Hj. rewrite Hi in Hj. injection Hj as <- <-.
        exists i, p'. unfold running. simpl.
        eapply nth_error_set_nth_same. exact Hi.
      * exists j, x. unfold running in *. simpl.
        rewrite nth_error_set_nth_other; [exact Hj|]. congruence.
    + right. right. split; [|split].
      * simpl. rewrite Hframe; [exact Hs1|].
        intros Hname. eapply Hs3; eauto.
      * exact Hs2.
      * intros a d' x' H. apply Hrun in H.
        destruct H as [(-> & -> & ->)|[Hna H]]; eapply Hs3; eauto.
Qed.

Lemma pool_step_isolated i s s' :
  isolated verbose drv repositories s -> pool_step verbose drv i s = Some s' -> isolated verbose drv repositories s'.
Proof.
  intros Hs. rewrite pool_step_thread.
  destruct (nth_error (workers s) i) as [[[data p]|]|] eqn:En; [| |discriminate].
  - destruct (thread_step drv p (shared s)) as [[[p' log'] made]|r] eqn:Et;
      intros [= <-].
    + eapply isolated_advance; eauto.
    + eapply isolated_finish; eauto.
  - destruct (queue s) as [|data rest] eqn:Eq; [discriminate|].
    intros [= <-]. apply isolated_take; assumption.
Qed.

Lemma run_schedule_isolated schedule s s' :
  isolated verbose drv repositories s -> run_schedule verbose drv schedule s = Some s' -> isolated verbose drv repositories s'.
Proof.
  revert s. induction schedule as [|i rest IH]; simpl; intros s Hs.
  - intros [= <-]. assumption.
  - destruct (pool_step verbose drv i s) as [s1|] eqn:E; [|discriminate].
    apply IH. eapply pool_step_isolated; eauto.
Qed.

Lemma start_isolated :
  NoDup (map get_repository repositories) -> isolated verbose drv repositories (start repositories).
Proof.
  intros Hnd.
  assert (Hnone : forall i d p, ~ running (start repositories) i d p).
  { unfold running. simpl. intros [|[|[|i]]] d p; simpl; discriminate. }
  constructor; simpl; auto.
  - intros i j di pi dj pj H. destruct (Hnone _ _ _ H).
  - intros i d p H. destruct (Hnone _ _ _ H).
  - intros i d p H. destruct (Hnone _ _ _ H).
Qed.

End Isolation.

(** ** Every batch finishes *)

Lemma run_schedule_app verbose drv s1 s2 st :
  run_schedule verbose drv (s1 ++ s2) st
  = match run_schedule verbose drv s1 st with
    | Some st' => run_schedule verbose drv s2 st'
    | None => None
    end.
Proof.
  revert st. induction s1 as [|i r IH]; intros st; simpl; [reflexivity|].
  destruct (pool_step verbose drv i st); auto.
Qed.

(** A task is a finite program: the first worker, left to itself, finishes
    it. *)
Lemma worker_finishes verbose drv (p : prog unit) :
  forall data q rest f log c,
  exists n f' log' c',
    run_schedule verbose drv (repeat 0 n) (mkPool q (Some (data, p) :: rest) f log c)
    = Some (mkPool q (None :: rest) f' log' c').
Proof.
  induction p as [a|e|argv cwd k IH|key k IH|key k IH|key line k IH];
    intros data q rest f log c.
  - exists 1. do 3 eexists. reflexivity.
  - exists 1. do 3 eexists. reflexivity.
  - destruct (IH (drv argv cwd) data q rest f log (c ++ [(argv, cwd)]))
      as (n & f' & log' & c' & H).
    exists (S n), f', log', c'. exact H.
  - destruct (IH (dict_in key log) data q rest f log c) as (n & f' & log' & c' & H).
    exists (S n), f', log', c'. exact H.
  - destruct (IH data q rest f (dict_set key [] log) c) as (n & f' & log' & c' & H).
    exists (S n), f', log', c'. exact H.
  - destruct (dict_append key line log) as [log1|] eqn:E.
    + destruct (IH data q rest f log1 c) as (n & f' & log' & c' & H).
      exists (S n), f', log', c'.
      cbn [repeat run_schedule pool_step workers queue futures shared calls
             nth_error set_nth]. rewrite E. exact H.
    + exists 1. do 3 eexists.
      cbn [repeat run_schedule pool_step workers queue futures shared calls
             nth_error set_nth]. rewrite E. reflexivity.
Qed.

Lemma queue_finishes verbose drv q :
  forall rest f log c,
  exists schedule f' log' c',
    run_schedule verbose drv schedule (mkPool q (None :: rest) f log c)
    = Some (mkPool [] (None :: rest) f' log' c').
Proof.
  induction q as [|data q IH]; intros rest f log c.
  - exists []. do 3 eexists. reflexivity.
  - destruct (worker_finishes verbose drv (submit verbose data) data q rest f log c)
      as (n & f1 & log1 & c1 & H1).
    destruct (IH rest f1 log1 c1) as (schedule & f' & log' & c' & H2).
    exists (0 :: repeat 0 n ++ schedule), f', log', c'.
    cbn [run_schedule pool_step workers queue futures shared calls nth_error set_nth].
    rewrite run_schedule_app, H1. exact H2.
Qed.

(** For every report there is a schedule under which the pool finishes, so
    the statements about finished pools are about something. *)
Lemma some_schedule_finishes verbose drv repositories :
  exists schedule s,
    run_schedule verbose drv schedule (start repositories) = Some s
    /\ all_done s = true.
Proof.
  destruct (queue_finishes verbose drv repositories [None] [] [] [])
    as (schedule & f' & log' & c' & H).
  exists schedule. eexists. split; [exact H|reflexivity].
Qed.

(** ** A sample batch *)

Lemma sample_run :
  run_schedule true sample_driver sample_schedule (start sample_rows)
  = Some sample_final.
Proof. vm_compute. reflexivity. Qed.

Lemma sample_done : all_done sample_final = true.
Proof. vm_compute. reflexivity. Qed.

Lemma sample_log :
  shared sample_final
  = [(lit "a", [RED ++ lit "fatal: repository 'bad' not found" ++ RESET]);
     (lit "b", [lit "Cloning into 'x'..."; lit "Switched";
                lit "Merge made by the 'ort' strategy. 1 file changed"]);
     (lit "c", [lit "Cloning into 'x'..."; lit "Switched";
                lit "Branch Created Successfully"])].
Proof. vm_compute. reflexivity. Qed.

Example exit_zero_with_text_succeeds :
  Error_init (Some (ascii_bytes "Merge made by the 'ort' strategy.")) 0
  = Normal (mkError (lit "Merge made by the 'ort' strategy.") false).
Proof. vm_compute. reflexivity. Qed.

Example exit_nonzero_without_text_fails :
  Error_init (Some []) 1 = Normal (mkError [] true).
Proof. reflexivity. Qed.

Lemma failed_iff_nonzero_exit_witness :
  (true = true <-> returncode (answer sample_driver (git_clone (lit "bad"))) <> 0%Z)
  /\ (is_error (mkError (lit "done") false) = true <-> 0%Z <> 0%Z).
Proof.
  apply (@failed_iff_nonzero_exit true sample_driver (lit "a") (lit "bad") [] []
           (clone true (lit "a") (lit "bad")) (git_clone (lit "bad")) true
           (log_of (run sample_driver (clone true (lit "a") (lit "bad")) [] []))
           (snd (run sample_driver (clone true (lit "a") (lit "bad")) [] []))
           (Some (ascii_bytes "done")) 0%Z (mkError (lit "done") false)).
  - left. reflexivity.
  - vm_compute. reflexivity.
  - vm_compute. reflexivity.
Defined.

Lemma stored_lines_have_no_newline_witness :
  ~ In 10%N (lit "Merge made by the 'ort' strategy. 1 file changed")
  /\ ~ In 10%N (get_message (mkError (lit "ab") false))
  /\ (Some (ascii_bytes ("a" ++ LF ++ "b")) = None ->
      get_message (mkError (lit "ab") false) = []).
Proof.
  apply (@stored_lines_have_no_newline true sample_driver sample_rows
           sample_schedule sample_final (lit "b")
           [lit "Cloning into 'x'..."; lit "Switched";
            lit "Merge made by the 'ort' strategy. 1 file changed"]
           (lit "Merge made by the 'ort' strategy. 1 file changed")
           (Some (ascii_bytes ("a" ++ LF ++ "b"))) 0%Z (mkError (lit "ab") false)).
  - exact sample_run.
  - rewrite sample_log. right. left. reflexivity.
  - right. right. left. reflexivity.
  - vm_compute. reflexivity.
Defined.

Lemma every_key_has_a_line_witness :
  [RED ++ lit "fatal: repository 'bad' not found" ++ RESET] <> []
  /\ ((forall k, dict_get k (shared sample_final) <> Some []) ->
      forall k,
        dict_get k (snd (fst (run sample_driver
                                (store_error true (lit "a") (mkError [] true))
                                (shared sample_final) [])))
        <> Some [])
  /\ dict_get (lit "a")
       (snd (fst (run sample_driver (store_error true (lit "a") (mkError [] true))
                      (shared sample_final) [])))
     = Some (match dict_get (lit "a") (shared sample_final) with
             | Some before => before
             | None => []
             end ++ [RED ++ RESET]).
Proof.
  apply (@every_key_has_a_line true sample_driver sample_rows sample_schedule
           sample_final (lit "a")
           [RED ++ lit "fatal: repository 'bad' not found" ++ RESET]
           (lit "a") (mkError [] true) (shared sample_final) []).
  - exact sample_run.
  - exact sample_done.
  - rewrite sample_log. left. reflexivity.
Defined.

Lemma quiet_run :
  run_schedule false quiet_driver quiet_schedule (start sample_rows)
  = Some quiet_final.
Proof. vm_compute. reflexivity. Qed.

Lemma quiet_done : all_done quiet_final = true.
Proof. vm_compute. reflexivity. Qed.

Lemma unrecorded_repository_has_no_row_witness :
  shared quiet_final = []
  /\ display_results (shared quiet_final)
     = [border Box.TL Box.TJ Box.TR 0 0; header_row 0 0;
        border Box.LJ Box.X Box.RJ 0 0; border Box.BL Box.BJ Box.BR 0 0].
Proof.
  exact (proj2 (proj2 (@unrecorded_repository_has_no_row false quiet_driver
                         sample_rows quiet_schedule quiet_final quiet_run quiet_done))
           eq_refl (fun _ _ => eq_refl)).
Defined.

(** ** Concurrent appends *)

Lemma raced_run :
  run_schedule false failing_clones racing_schedule (start same_name_rows)
  = Some raced.
Proof. vm_compute. reflexivity. Qed.

Lemma raced_log : shared raced = [(lit "r", [RED ++ lit "e2" ++ RESET])].
Proof. vm_compute. reflexivity. Qed.

(** C6, as stated, fails: three rows on the two workers, two of them with the
    same name; the line of the first row is lost. *)
Lemma same_name_loses_a_line :
  MAX_WORKERS < length same_name_rows
  /\ ~ no_line_lost false failing_clones same_name_rows.
Proof.
  split; [vm_compute; lia|].
  intros H.
  destruct (H racing_schedule raced (mkData (lit "r") (lit "u1") (lit "h"))
              (RED ++ lit "e1" ++ RESET) raced_run)
    as (lines & Hget & Hin).
  - vm_compute. reflexivity.
  - left. reflexivity.
  - exists [RED ++ lit "e1" ++ RESET]. split; [vm_compute; reflexivity|].
    left. reflexivity.
  - rewrite raced_log in Hget. vm_compute in Hget. injection Hget as <-.
    destruct Hin as [Hin|[]]. vm_compute in Hin. discriminate Hin.
Qed.

(** C6, amended.  When the names of the rows are pairwise distinct, then under
    every schedule, once the pool has finished, the sequence under each
    repository's key is the one its task builds when it runs alone: no line
    is lost, added or reordered.  (The recorder takes no lock; this holds
    because tasks with distinct names touch distinct keys.) *)
Theorem distinct_names_keep_every_line verbose drv repositories schedule s data :
  NoDup (map get_repository repositories) ->
  run_schedule verbose drv schedule (start repositories) = Some s ->
  all_done s = true ->
  In data repositories ->
  dict_get (get_repository data) (shared s)
  = dict_get (get_repository data) (alone verbose drv data).
Proof.
  intros Hnd Hs Hdone Hin.
  assert (Hiso : isolated verbose drv repositories s).
  { eapply run_schedule_isolated; [apply start_isolated; exact Hnd|exact Hs]. }
  destruct Hiso as [_ _ _ _ _ Hall].
  unfold all_done in Hdone. destruct (queue s) as [|d q] eqn:Eq; [|discriminate].
  destruct (Hall data Hin) as [Hq|[(i & p & Hrun)|(Hset & _)]].
  - try rewrite Eq in Hq. destruct Hq.
  - rewrite forallb_forall in Hdone. unfold running in Hrun.
    apply nth_error_In in Hrun. apply Hdone in Hrun. discriminate.
  - exact Hset.
Qed.

Lemma distinct_names_keep_every_line_witness :
  dict_get (lit "b") (shared sample_final)
  = dict_get (lit "b") (alone true sample_driver (mkData (lit "b") (lit "ub") (lit "h2"))).
Proof.
  apply (@distinct_names_keep_every_line true sample_driver sample_rows
           sample_schedule sample_final (mkData (lit "b") (lit "ub") (lit "h2"))).
  - repeat constructor; simpl; intuition discriminate.
  - exact sample_run.
  - exact sample_done.
  - right. left. reflexivity.
Defined.

(** ** The existence check *)

Lemma prefixb_spec p s : prefixb p s = true <-> exists post, s = p ++ post.
Proof.
  revert s. induction p as [|a p IH]; intros s; simpl.
  - split; [eauto|reflexivity].
  - destruct s as [|b s].
    + split; [discriminate|]. intros [post H]. discriminate.
    + rewrite andb_true_iff, N.eqb_eq, IH. split.
      * intros [-> [post ->]]. eauto.
      * intros [post [= -> ->]]. eauto.
Qed.

Lemma contains_spec sub s :
  contains sub s = true <-> exists before after, s = before ++ sub ++ after.
Proof.
  induction s as [|c t IH]; simpl; rewrite orb_true_iff, prefixb_spec.
  - split.
    + intros [[post H]|H]; [|discriminate]. exists [], post. exact H.
    + intros (before & after & H). left.
      destruct before; [eauto|discriminate].
  - rewrite IH. split.
    + intros [[post H]|(before & after & ->)].
      * exists [], post. exact H.
      * exists (c :: before), after. reflexivity.
    + intros (before & after & H). destruct before as [|b before].
      * left. eauto.
      * right. injection H as -> ->. eauto.
Qed.

Lemma split_on_head c s l ls :
  split_on c s = l :: ls -> exists post, s = l ++ post.
Proof.
  revert l ls. induction s as [|x t IH]; intros l ls; simpl.
  - intros [= <- <-]. exists []. reflexivity.
  - destruct (x =? c)%N.
    + intros [= <- <-]. exists (x :: t). reflexivity.
    + destruct (split_on c t) as [|l0 ls0].
      * intros [= <- <-]. exists t. reflexivity.
      * intros [= <- <-]. destruct (IH _ _ eq_refl) as [post ->].
        exists post. reflexivity.
Qed.

Lemma split_on_In c s l :
  In l (split_on c s) -> exists before after, s = before ++ l ++ after.
Proof.
  revert l. induction s as [|x t IH]; intros l; simpl.
  - intros [<-|[]]. exists [], []. reflexivity.
  - destruct (x =? c)%N.
    + intros [<-|H].
      * exists [], (x :: t). reflexivity.
      * destruct (IH _ H) as (before & after & ->).
        exists (x :: before), after. reflexivity.
    + destruct (split_on c t) as [|l0 ls0] eqn:E.
      * intros [<-|[]]. exists [], t. reflexivity.
      * intros [<-|H].
        -- destruct (split_on_head _ _ E) as [post ->].
           exists [], post. reflexivity.
        -- destruct (IH l (or_intror H)) as (before & after & ->).
           exists (x :: before), after. reflexivity.
Qed.

Lemma branch_listed_contains branch_name out :
  branch_listed branch_name out -> contains branch_name out = true.
Proof.
  intros (entry & Hin & Hname). apply contains_spec.
  unfold listed_names in Hin. apply in_map_iff in Hin.
  destruct Hin as (line & <- & Hline).
  apply split_on_In in Hline. destruct Hline as (before & after & ->).
  pose proof (firstn_skipn 2 line) as Hsplit.
  remember (firstn 2 line) as mark eqn:Hmark.
  remember (skipn 2 line) as entry eqn:Hentry.
  clear Hmark Hentry. subst line.
  destruct Hname as [->|[remote ->]].
  - exists (before ++ mark), after.
    rewrite <- !app_assoc. reflexivity.
  - exists (before ++ mark ++ lit "remotes/" ++ remote ++ lit "/"), after.
    rewrite <- !app_assoc. reflexivity.
Qed.




(** ** When the listing itself fails *)

(** [branch_exists] leaves the error stream of [git branch -a] unpiped, so
    [err] is always [None] and the branch that raises is never taken. *)
Lemma branch_exists_never_signals drv repository branch_name log tr message :
  fst (fst (run drv (branch_exists repository branch_name) log tr))
  <> Raised (UnknownGitException message).
Proof.
  rewrite run_branch_exists. unfold branch_found. cbn [fst].
  destruct (decode _); discriminate.
Qed.

(** Nothing a task raises reaches the script body. *)
Lemma main_returns_normally verbose drv repositories schedule r fs :
  main verbose drv repositories schedule = Some (r, fs) ->
  exists table, r = Normal table.
Proof.
  unfold main. destruct (run_schedule _ _ _ _) as [s|]; [|discriminate].
  destruct (all_done s); [|discriminate]. intros [= <- _]. eauto.
Qed.

(** C2, on the code.  The listing of [a] fails (exit status 128, a message on
    the error stream), yet [branch_exists] answers false instead of raising;
    the task goes on to the checkout, whose failure is recorded like any
    other; the other worker completes [b] (its branch is created); no future
    holds an exception and the table is printed. *)
Theorem listing_failure_does_not_abort :
  returncode (answer broken_listing (git_branch_a (lit "a"))) = 128%Z
  /\ run broken_listing (branch_exists (lit "a") STABLE_BRANCH_NAME) [] []
     = (Normal false, [], [git_branch_a (lit "a")])
  /\ main false broken_listing broken_rows broken_schedule
     = Some (Normal (display_results
                       [(lit "a", [RED ++ lit "fatal: not a git repository" ++ RESET])]),
             [Normal tt; Normal tt])
  /\ In (git_checkout_b (lit "b") STABLE_BRANCH_NAME)
        (calls (reached (run_schedule false broken_listing broken_schedule
                           (start broken_rows)))).
Proof.
  split; [reflexivity|]. split; [vm_compute; reflexivity|].
  split; [vm_compute; reflexivity|].
  vm_compute. tauto.
Qed.

Example worker_exception_is_dropped :
  main false undecodable_listing broken_rows (concat (repeat [0; 1] 4) ++ [1; 1])
  = Some (Normal (display_results []), [Raised UnicodeDecodeError; Normal tt]).
Proof. vm_compute. reflexivity. Qed.

(** ** Column widths *)

Lemma longer_max current s : longer current s = Nat.max current (length s).
Proof.
  unfold longer. destruct (current <? length s) eqn:E.
  - apply Nat.ltb_lt in E. lia.
  - apply Nat.ltb_ge in E. lia.
Qed.

Lemma measure_messages messages lv :
  fold_left (fun lv message => longer lv (cleaned message)) messages lv
  = Nat.max lv (list_max (map (fun m => length (cleaned m)) messages)).
Proof.
  revert lv. induction messages as [|m ms IH]; intros lv; simpl.
  - lia.
  - rewrite IH, longer_max. lia.
Qed.

(** The widths the first loop computes are the two maxima: over the names,
    and over the lines with the markers taken out. *)
Lemma measure_spec log :
  measure log
  = (list_max (map (fun item => length (fst item)) log),
     list_max (map (fun m => length (cleaned m)) (flat_map snd log))).
Proof.
  unfold measure.
  assert (H : forall lk lv,
             fold_left
               (fun (acc : nat * nat) (item : pystr * list pystr) =>
                  let '(longest_key, longest_value) := acc in
                  let '(key, messages) := item in
                  (longer longest_key key,
                   fold_left (fun lv message => longer lv (cleaned message))
                             messages longest_value))
               log (lk, lv)
             = (Nat.max lk (list_max (map (fun item => length (fst item)) log)),
                Nat.max lv (list_max (map (fun m => length (cleaned m))
                                          (flat_map snd log))))).
  { induction log as [|[key messages] r IH]; intros lk lv; simpl.
    - f_equal; lia.
    - rewrite IH, measure_messages, longer_max, map_app, list_max_app.
      f_equal; lia. }
  rewrite H. reflexivity.
Qed.

Lemma ljust_length s width : length (ljust s width) = Nat.max (length s) width.
Proof. unfold ljust. rewrite length_app, repeat_length. lia. Qed.

(** C7, on the code.  The widths computed are 9 and 10, the borders have
    them and the names are padded to 9; but the row of [svc-a] holds its
    marked message with no padding at all (2 visible characters in a column
    of 10), because [ljust] counts the nine marker characters that the
    measuring loop had taken out.  And in the table of an empty dictionary
    the header cells are 4 and 5 wide in columns of width 0. *)
Theorem marked_rows_are_not_padded :
  main false short_and_long two_rows two_schedule
  = Some (Normal [border Box.TL Box.TJ Box.TR 9 10;
                  cells (lit "repo     ") (lit "  error   ");
                  border Box.LJ Box.X Box.RJ 9 10;
                  cells (lit "svc-a    ") (RED ++ lit "ab" ++ RESET);
                  border Box.LJ Box.X Box.RJ 9 10;
                  cells (lit "service-b") (RED ++ lit "abcdefghij" ++ RESET);
                  border Box.LJ Box.X Box.RJ 9 10;
                  border Box.BL Box.BJ Box.BR 9 10],
          [Normal tt; Normal tt])
  /\ length (cleaned (RED ++ lit "ab" ++ RESET)) = 2
  /\ length (cleaned (RED ++ lit "abcdefghij" ++ RESET)) = 10
  /\ display_results []
     = [border Box.TL Box.TJ Box.TR 0 0; cells (lit "repo") (lit "error");
        border Box.LJ Box.X Box.RJ 0 0; border Box.BL Box.BJ Box.BR 0 0].
Proof.
  split; [vm_compute; reflexivity|]. repeat split; reflexivity.
Qed.

(** ** One run of [handle_branch], step by step *)

(** Whatever relation holds across every call of the recorder, and composes,
    holds across a whole run. *)
Lemma handle_branch_steps verbose drv url repository hashcode
    (R : error_list -> error_list -> Prop) :
  (forall l, R l l) ->
  (forall a b c, R a b -> R b c -> R a c) ->
  (forall l e, R l (recorded verbose repository e l)) ->
  forall log tr,
    R log (log_of (run drv (handle_branch verbose url repository hashcode) log tr)).
Proof.
  intros Hrefl Htrans Hstep log tr.
  assert (H2 : forall l e1 e2,
             R l (recorded verbose repository e2 (recorded verbose repository e1 l))).
  { intros. eapply Htrans; apply Hstep. }
  assert (H3 : forall l e1 e2 e3,
             R l (recorded verbose repository e3
                    (recorded verbose repository e2 (recorded verbose repository e1 l)))).
  { intros. eapply Htrans; [apply H2|apply Hstep]. }
  unfold handle_branch, log_of.
  rewrite run_bind, run_clone. unfold after_operation.
  destruct (piped_outcome drv (git_clone url)) as [e|x]; [|apply Hrefl].
  destruct (is_error e); [apply Hstep|].
  rewrite run_bind, run_branch_exists.
  destruct (branch_found drv repository STABLE_BRANCH_NAME) as [[|]|x];
    [| |apply Hstep].
  - rewrite run_bind, run_checkout_branch. unfold after_operation.
    destruct (piped_outcome drv (git_checkout repository STABLE_BRANCH_NAME))
      as [e1|x]; [|apply Hstep].
    destruct (is_error e1); [apply H2|].
    rewrite run_bind, run_merge. unfold after_operation.
    destruct (merge_outcome drv (git_merge repository hashcode)) as [e2|x];
      [destruct (is_error e2); apply H3|apply H2].
  - rewrite run_bind, run_checkout_branch. unfold after_operation.
    destruct (piped_outcome drv (git_checkout repository hashcode))
      as [e1|x]; [|apply Hstep].
    destruct (is_error e1); [apply H2|].
    rewrite run_bind, run_create_branch. unfold after_operation.
    destruct (create_outcome drv (git_checkout_b repository STABLE_BRANCH_NAME))
      as [e2|x]; [destruct (is_error e2); apply H3|apply H2].
Qed.

Lemma record_line_keys repository line log :
  map fst (record_line repository line log)
  = if dict_in repository log then map fst log else map fst log ++ [repository].
Proof.
  unfold record_line, dict_in.
  destruct (dict_get repository log) eqn:E.
  - rewrite dict_set_keys. unfold dict_in. rewrite E. reflexivity.
  - rewrite map_app. reflexivity.
Qed.

Lemma extends_refl repository log : extends repository log log.
Proof.
  split.
  - intros k. destruct (dict_get k log) as [lines|]; [|auto].
    exists []. rewrite app_nil_r. auto.
  - destruct (dict_in repository log); reflexivity.
Qed.

Lemma extends_record_line repository line log :
  extends repository log (record_line repository line log).
Proof.
  split.
  - intros k. destruct (eqb k repository) eqn:E.
    + apply eqb_eq in E. subst k. rewrite record_line_get.
      destruct (dict_get repository log) as [lines|]; [|congruence].
      exists [line]. split; [reflexivity|congruence].
    + apply eqb_neq in E. rewrite record_line_other by exact E.
      destruct (dict_get k log) as [lines|]; [|auto].
      exists []. rewrite app_nil_r. auto.
  - rewrite record_line_keys.
    assert (H : dict_in repository (record_line repository line log) = true).
    { unfold dict_in. rewrite record_line_get. reflexivity. }
    rewrite H. destruct (dict_in repository log); reflexivity.
Qed.

Lemma extends_recorded verbose repository e log :
  extends repository log (recorded verbose repository e log).
Proof.
  unfold recorded.
  destruct (is_error e); [|destruct verbose];
    auto using extends_record_line, extends_refl.
Qed.

Lemma extends_present repository a b :
  extends repository a b -> dict_in repository a = true -> dict_in repository b = true.
Proof.
  intros [H _]. unfold dict_in. specialize (H repository).
  destruct (dict_get repository a); [|discriminate].
  destruct H as (added & -> & _). reflexivity.
Qed.

Lemma extends_trans repository a b c :
  extends repository a b -> extends repository b c -> extends repository a c.
Proof.
  intros Hab Hbc. split.
  - intros k. destruct Hab as [Hab _], Hbc as [Hbc _].
    specialize (Hab k). specialize (Hbc k).
    destruct (dict_get k a) as [lines|].
    + destruct Hab as (add1 & Hb & H1). rewrite Hb in Hbc.
      destruct Hbc as (add2 & Hc & H2).
      exists (add1 ++ add2). rewrite app_assoc. split; [exact Hc|].
      intros Hk. rewrite (H1 Hk), (H2 Hk). reflexivity.
    + intros Hk. rewrite (Hab Hk) in Hbc. auto.
  - pose proof (extends_present Hab) as Pab.
    pose proof (extends_present Hbc) as Pbc.
    destruct Hab as [_ Kab], Hbc as [_ Kbc]. rewrite Kbc, Kab.
    destruct (dict_in repository a), (dict_in repository b),
      (dict_in repository c); simpl; try reflexivity;
      try (specialize (Pab eq_refl); discriminate);
      try (specialize (Pbc eq_refl); discriminate).
Qed.

(** X1.  A run of [handle_branch], from any dictionary: every sequence that
    was there is still there, with lines added only at the end and only under
    the run's own repository; no other key appears; the keys keep their
    order, the repository coming last when it is new. *)
Theorem handle_branch_only_appends verbose drv url repository hashcode log tr :
  let later := log_of (run drv (handle_branch verbose url repository hashcode) log tr) in
  (forall k lines,
      dict_get k log = Some lines ->
      exists added,
        dict_get k later = Some (lines ++ added)
        /\ (k <> repository -> added = []))
  /\ (forall k, k <> repository -> dict_get k log = None -> dict_get k later = None)
  /\ (map fst later = map fst log \/ map fst later = map fst log ++ [repository]).
Proof.
  cbv zeta.
  assert (H : extends repository log
                (log_of (run drv (handle_branch verbose url repository hashcode) log tr))).
  { apply handle_branch_steps.
    - apply extends_refl.
    - apply extends_trans.
    - intros l e. apply extends_recorded. }
  destruct H as [Hget Hkeys]. split; [|split].
  - intros k lines Hk. specialize (Hget k). rewrite Hk in Hget. exact Hget.
  - intros k Hne Hk. specialize (Hget k). rewrite Hk in Hget. auto.
  - rewrite Hkeys. destruct (negb _ && _); auto.
Qed.

Lemma after_quiet repository outcome i log tr :
  after_operation false repository outcome i log tr
  = match outcome with
    | Normal e =>
        (Normal (is_error e),
         if is_error e
         then record_line repository (RED ++ get_message e ++ RESET) log
         else log,
         tr ++ [i])
    | Raised x => (Raised x, log, tr ++ [i])
    end.
Proof.
  unfold after_operation, recorded. destruct outcome as [e|x]; [|reflexivity].
  destruct (is_error e); reflexivity.
Qed.

Ltac quiet_leaf :=
  cbn [run];
  first [ left; reflexivity
        | right; split; [reflexivity|eexists; reflexivity] ].

(** X2.  With [verbose] off, a run of [handle_branch] leaves the dictionary as
    it was, or returns having appended exactly one line under its repository,
    a message between the error markers: the first failure is the only thing
    recorded. *)
Theorem quiet_run_records_first_failure drv url repository hashcode log tr :
  log_of (run drv (handle_branch false url repository hashcode) log tr) = log
  \/ (fst (fst (run drv (handle_branch false url repository hashcode) log tr))
      = Normal tt
      /\ exists message,
          log_of (run drv (handle_branch false url repository hashcode) log tr)
          = record_line repository (RED ++ message ++ RESET) log).
Proof.
  unfold handle_branch, log_of.
  rewrite run_bind, run_clone, after_quiet.
  destruct (piped_outcome drv (git_clone url)) as [e|x]; [|quiet_leaf].
  destruct (is_error e); [quiet_leaf|].
  rewrite run_bind, run_branch_exists.
  destruct (branch_found drv repository STABLE_BRANCH_NAME) as [[|]|x];
    [| |quiet_leaf].
  - rewrite run_bind, run_checkout_branch, after_quiet.
    destruct (piped_outcome drv (git_checkout repository STABLE_BRANCH_NAME))
      as [e1|x]; [|quiet_leaf].
    destruct (is_error e1); [quiet_leaf|].
    rewrite run_bind, run_merge, after_quiet.
    destruct (merge_outcome drv (git_merge repository hashcode)) as [e2|x];
      [destruct (is_error e2)|]; quiet_leaf.
  - rewrite run_bind, run_checkout_branch, after_quiet.
    destruct (piped_outcome drv (git_checkout repository hashcode))
      as [e1|x]; [|quiet_leaf].
    destruct (is_error e1); [quiet_leaf|].
    rewrite run_bind, run_create_branch, after_quiet.
    destruct (create_outcome drv (git_checkout_b repository STABLE_BRANCH_NAME))
      as [e2|x]; [destruct (is_error e2)|]; quiet_leaf.
Qed.

Lemma recorded_verbose repository e log :
  recorded true repository e log = record_line repository (line_of e) log.
Proof. unfold recorded, line_of. destruct (is_error e); reflexivity. Qed.

Lemma record_line_get_app repository line log lines :
  dict_get repository log = Some lines ->
  dict_get repository (record_line repository line log) = Some (lines ++ [line]).
Proof. intros H. rewrite record_line_get, H. reflexivity. Qed.

Ltac verbose_leaf :=
  cbn [run fst snd]; intros Hnormal; try discriminate Hnormal;
  rewrite ?recorded_verbose;
  match goal with
  | |- context [record_line ?r ?l3 (record_line ?r ?l2 (record_line ?r ?l1 ?log))] =>
      exists [l1; l2; l3]; split; [|reflexivity];
      erewrite record_line_get_app;
        [|erewrite record_line_get_app; [|rewrite record_line_get]; reflexivity];
      rewrite <- !app_assoc; reflexivity
  | |- context [record_line ?r ?l2 (record_line ?r ?l1 ?log)] =>
      exists [l1; l2]; split; [|reflexivity];
      erewrite record_line_get_app; [|rewrite record_line_get; reflexivity];
      rewrite <- !app_assoc; reflexivity
  | |- context [record_line ?r ?l1 ?log] =>
      exists [l1]; split; [|reflexivity];
      rewrite record_line_get; reflexivity
  end.

(** X3.  With [verbose] on, a run of [handle_branch] that returns has added
    one line under its repository for every operation it performed, the
    branch listing excepted: as many lines as invocations, less one when the
    listing was reached. *)
Theorem verbose_run_records_every_operation drv url repository hashcode log :
  fst (fst (run drv (handle_branch true url repository hashcode) log [])) = Normal tt ->
  exists added,
    dict_get repository
      (log_of (run drv (handle_branch true url repository hashcode) log []))
    = Some (match dict_get repository log with
            | Some lines => lines
            | None => []
            end ++ added)
    /\ length added
       = length (snd (run drv (handle_branch true url repository hashcode) log []))
         - (if length (snd (run drv (handle_branch true url repository hashcode) log []))
               <=? 1
            then 0 else 1).
Proof.
  unfold handle_branch, log_of.
  rewrite run_bind, run_clone. unfold after_operation.
  destruct (piped_outcome drv (git_clone url)) as [e|x]; [|verbose_leaf].
  destruct (is_error e); [verbose_leaf|].
  rewrite run_bind, run_branch_exists.
  destruct (branch_found drv repository STABLE_BRANCH_NAME) as [[|]|x];
    [| |verbose_leaf].
  - rewrite run_bind, run_checkout_branch. unfold after_operation.
    destruct (piped_outcome drv (git_checkout repository STABLE_BRANCH_NAME))
      as [e1|x]; [|verbose_leaf].
    destruct (is_error e1); [verbose_leaf|].
    rewrite run_bind, run_merge. unfold after_operation.
    destruct (merge_outcome drv (git_merge repository hashcode)) as [e2|x];
      [destruct (is_error e2)|]; verbose_leaf.
  - rewrite run_bind, run_checkout_branch. unfold after_operation.
    destruct (piped_outcome drv (git_checkout repository hashcode))
      as [e1|x]; [|verbose_leaf].
    destruct (is_error e1); [verbose_leaf|].
    rewrite run_bind, run_create_branch. unfold after_operation.
    destruct (create_outcome drv (git_checkout_b repository STABLE_BRANCH_NAME))
      as [e2|x]; [destruct (is_error e2)|]; verbose_leaf.
Qed.

(** X4.  [create_branch_from_position] and [merge_commit_into_current_branch]
    do not pipe the error stream: when [git] exits with a status that is not
    zero, each returns true and the line recorded is the two markers with
    nothing between them, whatever [git] wrote. *)
Theorem unpiped_failure_has_no_text verbose drv repository arg log tr op i :
  In (op, i)
     [(create_branch_from_position verbose repository arg,
       git_checkout_b repository arg);
      (merge_commit_into_current_branch verbose repository arg,
       git_merge repository arg)] ->
  returncode (answer drv i) <> 0%Z ->
  run drv op log tr
  = (Normal true, record_line repository (RED ++ RESET) log, tr ++ [i]).
Proof.
  intros Hin Hcode. apply Z.eqb_neq in Hcode.
  destruct Hin as [H|[H|[]]]; injection H as <- <-.
  - rewrite run_create_branch. unfold create_outcome. rewrite Hcode.
    cbn [negb Error_init after_operation]. rewrite Hcode. reflexivity.
  - rewrite run_merge. unfold merge_outcome. rewrite Hcode.
    cbn [negb Error_init after_operation]. rewrite Hcode. reflexivity.
Qed.

Lemma unpiped_failure_has_no_text_witness :
  run broken_listing
    (merge_commit_into_current_branch false (lit "a") (lit "h1")) [] []
  = (Normal true, record_line (lit "a") (RED ++ RESET) [],
     [] ++ [git_merge (lit "a") (lit "h1")]).
Proof.
  apply (@unpiped_failure_has_no_text false broken_listing (lit "a") (lit "h1")
           [] [] (merge_commit_into_current_branch false (lit "a") (lit "h1"))
           (git_merge (lit "a") (lit "h1"))).
  - right. left. reflexivity.
  - vm_compute. discriminate.
Defined.


(** ** What a task can raise *)

Lemma ready_known repository (A : Type) known (p : prog A) :
  ready repository known p -> ready repository true p.
Proof. induction 1; auto. Qed.

Lemma ready_any repository (A : Type) known (p : prog A) :
  ready repository false p -> ready repository known p.
Proof. destruct known; [apply ready_known|auto]. Qed.

Lemma ready_bind repository (A B : Type) known (p : prog A) (f : A -> prog B) :
  ready repository known p ->
  (forall a, ready repository false (f a)) ->
  ready repository known (bind p f).
Proof.
  intros Hp Hf. induction Hp; simpl; auto.
  apply ready_any. apply Hf.
Qed.

Lemma ready_store_error verbose repository error :
  ready repository false (store_error verbose repository error).
Proof.
  unfold store_error.
  destruct (is_error error || verbose); [|auto].
  destruct (is_error error); simpl; apply ready_contains; simpl; auto.
Qed.

Lemma ready_Error_init repository message code :
  ready repository false (lift (Error_init message code)).
Proof.
  unfold Error_init. destruct message as [[|b m]|]; cbn [lift]; try constructor.
  destruct (decode (b :: m)); cbn [lift]; constructor.
Qed.

Lemma ready_operation verbose repository (p : prog Error) :
  ready repository false p ->
  ready repository false
    (error <- p ;; store_error verbose repository error ;; Ret (is_error error)).
Proof.
  intros Hp. apply ready_bind; [exact Hp|]. intros e.
  apply ready_bind; [apply ready_store_error|auto].
Qed.

Lemma ready_handle_branch verbose url repository hashcode :
  ready repository false (handle_branch verbose url repository hashcode).
Proof.
  assert (Hclone : ready repository false (clone verbose repository url)).
  { unfold clone, popen_communicate. cbn [bind]. constructor. intros r.
    cbn [bind]. apply ready_operation, ready_Error_init. }
  assert (Hco : forall ref, ready repository false (checkout_branch verbose repository ref)).
  { intros ref. unfold checkout_branch, popen_communicate. cbn [bind].
    constructor. intros r. cbn [bind]. apply ready_operation, ready_Error_init. }
  assert (Hcr : forall name,
             ready repository false
               (create_branch_from_position verbose repository name)).
  { intros name. unfold create_branch_from_position, popen_communicate.
    cbn [bind]. constructor. intros r. cbn [bind]. rewrite created_message.
    apply ready_operation. destruct (negb _); auto using ready_Error_init. }
  assert (Hm : forall h,
             ready repository false
               (merge_commit_into_current_branch verbose repository h)).
  { intros h. unfold merge_commit_into_current_branch, popen_communicate.
    cbn [bind]. constructor. intros r. cbn [bind].
    apply ready_operation. destruct (negb _); apply ready_Error_init. }
  assert (Hb : forall name, ready repository false (branch_exists repository name)).
  { intros name. unfold branch_exists, popen_communicate. cbn [bind].
    constructor. intros r. cbn [bind truthy]. destruct (decode _); auto. }
  unfold handle_branch.
  apply ready_bind; [exact Hclone|]. intros [|]; [auto|].
  apply ready_bind; [apply Hb|]. intros [|].
  - apply ready_bind; [apply Hco|]. intros [|]; [auto|].
    apply ready_bind; [apply Hm|]. intros [|]; auto.
  - apply ready_bind; [apply Hco|]. intros [|]; [auto|].
    apply ready_bind; [apply Hcr|]. intros [|]; auto.
Qed.

Lemma dict_in_set key k v log :
  dict_in key log = true -> dict_in key (dict_set k v log) = true.
Proof.
  unfold dict_in. rewrite dict_get_set.
  destruct (eqb key k); [reflexivity|auto].
Qed.

Lemma dict_in_set_same k v log : dict_in k (dict_set k v log) = true.
Proof. unfold dict_in. rewrite dict_get_set, eqb_refl. reflexivity. Qed.

Lemma run_ready repository (A : Type) drv (p : prog A) known :
  ready repository known p ->
  forall log tr,
    (known = true -> dict_in repository log = true) ->
    mild (fst (fst (run drv p log tr))).
Proof.
  induction 1 as [known a|known|known argv cwd k Hk IH|known k Ht IHt Hf IHf
                 |known k Hk IH|line k Hk IH];
    intros log tr Hknown; simpl; auto.
  - destruct (dict_in repository log) eqn:E; [apply IHt; auto|apply IHf].
    intros Hk. specialize (Hknown Hk). discriminate Hknown.
  - apply IH. intros _. apply dict_in_set_same.
  - specialize (Hknown eq_refl). unfold dict_append, dict_in in *.
    destruct (dict_get repository log) as [v|]; [|discriminate].
    apply IH. intros _. unfold dict_in. rewrite dict_get_set, eqb_refl. reflexivity.
Qed.


(** ** The shape of the table *)

Lemma remove_aux_length old skip s : length (remove_aux old skip s) <= length s.
Proof.
  revert skip. induction s as [|c t IH]; intros skip; cbn [remove_aux length].
  - lia.
  - destruct skip as [|k].
    + destruct (prefixb old (c :: t)).
      * specialize (IH (length old - 1)). lia.
      * cbn [length]. specialize (IH 0). lia.
    + specialize (IH k). lia.
Qed.

Lemma remove_length old s : length (remove old s) <= length s.
Proof. unfold remove. destruct old; [lia|apply remove_aux_length]. Qed.

Lemma center_length s width : length (center s width) = Nat.max (length s) width.
Proof.
  unfold center. rewrite !length_app, !repeat_length.
  set (marg := width - length s).
  set (left := Nat.div2 marg + (if Nat.odd marg && Nat.odd width then 1 else 0)).
  assert (H : left <= marg).
  { unfold left. clear left. clearbody marg.
    pose proof (Nat.div2_odd marg) as Hd.
    destruct (Nat.odd marg); cbn [andb Nat.b2n] in *;
      [destruct (Nat.odd width)|]; lia. }
  clearbody left. unfold marg in *. lia.
Qed.

Lemma cells_length left right :
  length (cells left right) = length left + length right + 7.
Proof. unfold cells. rewrite !length_app. simpl. lia. Qed.

Lemma border_length l m r lk lv : length (border l m r lk lv) = table_width lk lv.
Proof.
  unfold border, table_width, times. rewrite !length_app, !repeat_length.
  simpl. lia.
Qed.

Lemma data_row_length lk lv name message :
  length name <= lk -> length message <= lv ->
  length (data_row lk lv name message) = table_width lk lv.
Proof.
  intros Hn Hm. unfold data_row, table_width.
  rewrite cells_length, !ljust_length. lia.
Qed.

Lemma header_row_length lk lv :
  4 <= lk -> 5 <= lv -> length (header_row lk lv) = table_width lk lv.
Proof.
  intros Hk Hv. unfold header_row, table_width.
  rewrite cells_length, ljust_length, center_length.
  change (length (lit "repo")) with 4. change (length (lit "error")) with 5. lia.
Qed.

Lemma list_max_In x l : In x l -> x <= list_max l.
Proof.
  intros H. assert (Hle : list_max l <= list_max l) by lia.
  rewrite list_max_le in Hle. rewrite Forall_forall in Hle. auto.
Qed.

Lemma measure_bounds log key lines :
  In (key, lines) log ->
  length key <= fst (measure log)
  /\ forall line, In line lines -> length (cleaned line) <= snd (measure log).
Proof.
  intros Hin. rewrite measure_spec. cbn [fst snd]. split.
  - apply list_max_In.
    change (length key) with ((fun item : pystr * list pystr => length (fst item))
                                (key, lines)).
    apply in_map. exact Hin.
  - intros line Hline. apply list_max_In.
    apply in_map with (f := fun m => length (cleaned m)).
    apply in_flat_map. exists (key, lines). split; [exact Hin|exact Hline].
Qed.

Lemma row_of_count lk lv name messages :
  length (flat_map (row_of lk lv name) messages) = length (filter printable messages).
Proof.
  induction messages as [|m ms IH]; [reflexivity|].
  cbn [flat_map filter]. rewrite length_app, IH.
  unfold row_of, printable. destruct (eqb (remove NEWLINE m) []); reflexivity.
Qed.

Lemma repo_block_count lk lv item :
  length (repo_block lk lv item) = length (filter printable (snd item)) + 1.
Proof.
  unfold repo_block. rewrite length_app. cbn [length]. f_equal.
  destruct (snd item) as [|m ms]; [reflexivity|].
  rewrite length_app, row_of_count. cbn [filter].
  unfold row_of, printable. destruct (eqb (remove NEWLINE m) []); reflexivity.
Qed.

(** X7.  The table has four lines of frame, one separator for every key of
    the dictionary, and one row for every stored line that is not empty once
    its newlines are removed; an empty line gets no row. *)
Theorem table_line_count log :
  length (display_results log)
  = 4 + length log
    + list_sum (map (fun item => length (filter printable (snd item))) log).
Proof.
  rewrite display_results_blocks.
  set (lk := fst (measure log)). set (lv := snd (measure log)).
  cbn [app length]. rewrite length_app. cbn [length].
  assert (H : forall l,
             length (flat_map (repo_block lk lv) l)
             = length l
               + list_sum (map (fun item => length (filter printable (snd item))) l)).
  { induction l as [|item r IH]; [reflexivity|].
    cbn [flat_map map length]. rewrite length_app, IH, repo_block_count.
    unfold list_sum. cbn [fold_right]. lia. }
  rewrite H. lia.
Qed.

(** X8.  When the first line stored for a repository is empty (a step that
    succeeded without a word, with [verbose] on), the loop clears [is_first]
    without printing, so the repository's rows all have a blank name cell:
    its name is not in the table. *)
Theorem empty_first_line_hides_the_name lk lv printed repo first others :
  remove NEWLINE first = [] ->
  print_repo lk lv printed (repo, first :: others)
  = printed
    ++ flat_map (fun message =>
                   if eqb (remove NEWLINE message) []
                   then []
                   else [cells (ljust [] lk) (ljust (remove NEWLINE message) lv)])
                others
    ++ [border Box.LJ Box.X Box.RJ lk lv].
Proof.
  intros Hfirst. rewrite print_repo_block. unfold repo_block. cbn [fst snd].
  unfold row_of at 1. rewrite Hfirst. cbn [eqb app].
  rewrite <- app_assoc. reflexivity.
Qed.

Lemma empty_first_line_hides_the_name_witness :
  print_repo 5 8 [] (lit "svc-a", [[]; lit "Switched"])
  = []
    ++ flat_map (fun message =>
                   if eqb (remove NEWLINE message) []
                   then []
                   else [cells (ljust [] 5) (ljust (remove NEWLINE message) 8)])
                [lit "Switched"]
    ++ [border Box.LJ Box.X Box.RJ 5 8].
Proof.
  apply (@empty_first_line_hides_the_name 5 8 [] (lit "svc-a") [] [lit "Switched"]).
  reflexivity.
Defined.

(** X9.  When no stored line holds a colour marker and the two widths are at
    least those of the header words (4 and 5), every line of the table has
    the same length: the table is a rectangle. *)
Theorem plain_table_is_rectangular log row :
  (forall key lines line,
      In (key, lines) log -> In line lines -> cleaned line = line) ->
  4 <= fst (measure log) ->
  5 <= snd (measure log) ->
  In row (display_results log) ->
  length row = table_width (fst (measure log)) (snd (measure log)).
Proof.
  intros Hplain Hk Hv. rewrite display_results_blocks.
  set (lk := fst (measure log)) in *. set (lv := snd (measure log)) in *.
  assert (Hrow : forall name key lines m,
             In (key, lines) log -> In m lines -> length name <= lk ->
             forall x, In x (row_of lk lv name m) -> length x = table_width lk lv).
  { intros name key lines m Hin Hm Hname x Hx. unfold row_of in Hx.
    destruct (eqb (remove NEWLINE m) []); [destruct Hx|].
    destruct Hx as [<-|[]]. apply data_row_length; [exact Hname|].
    destruct (measure_bounds log key lines Hin) as [_ Hb].
    specialize (Hb m Hm). rewrite (Hplain key lines m Hin Hm) in Hb.
    pose proof (remove_length NEWLINE m). fold lv in Hb. lia. }
  intros Hin. cbn [app] in Hin.
  destruct Hin as [<-|[<-|[<-|Hin]]];
    [apply border_length|apply header_row_length; assumption|apply border_length|].
  apply in_app_or in Hin. destruct Hin as [Hin|[<-|[]]]; [|apply border_length].
  apply in_flat_map in Hin. destruct Hin as ([key lines] & Hitem & Hin).
  unfold repo_block in Hin. cbn [fst snd] in Hin.
  apply in_app_or in Hin. destruct Hin as [Hin|[<-|[]]]; [|apply border_length].
  destruct lines as [|m ms]; [destruct Hin|].
  apply in_app_or in Hin. destruct Hin as [Hin|Hin].
  - eapply Hrow; [exact Hitem|left; reflexivity| |exact Hin].
    destruct (measure_bounds log key (m :: ms) Hitem) as [Hb _]. exact Hb.
  - apply in_flat_map in Hin. destruct Hin as (m' & Hm' & Hin).
    eapply Hrow; [exact Hitem|right; exact Hm'| |exact Hin]. simpl. lia.
Qed.

Lemma plain_table_is_rectangular_witness :
  length (cells (ljust (lit "svc-a") 9) (ljust (lit "Cloning into 'svc-a'...") 27))
  = table_width (fst (measure plain_log)) (snd (measure plain_log)).
Proof.
  apply (@plain_table_is_rectangular plain_log
           (cells (ljust (lit "svc-a") 9) (ljust (lit "Cloning into 'svc-a'...") 27))).
  - intros key lines line Hk Hl.
    destruct Hk as [Hk|[Hk|[]]]; injection Hk as <- <-;
      repeat (destruct Hl as [<-|Hl]; [reflexivity|]); destruct Hl.
  - vm_compute. lia.
  - vm_compute. lia.
  - vm_compute. tauto.
Defined.

(** X10.  The widths [display_results] draws its borders with are the length
    of the longest key and the length of the longest stored line with the
    colour markers taken out (0 for an empty dictionary); the top border, the
    header, a separator and the bottom border are always printed, all borders
    with these widths. *)
Theorem table_borders_have_measured_widths log :
  let lk := list_max (map (fun item => length (fst item)) log) in
  let lv := list_max (map (fun m => length (cleaned m)) (flat_map snd log)) in
  exists body,
    display_results log
    = border Box.TL Box.TJ Box.TR lk lv
      :: header_row lk lv
      :: border Box.LJ Box.X Box.RJ lk lv
      :: body ++ [border Box.BL Box.BJ Box.BR lk lv]
    /\ length (border Box.TL Box.TJ Box.TR lk lv) = lk + lv + 7.
Proof.
  cbv zeta. rewrite display_results_blocks, measure_spec. cbn [fst snd].
  eexists. split; [reflexivity|].
  rewrite border_length. reflexivity.
Qed.

(** ** More invariants of the pool *)

Lemma pool_step_cases verbose drv i s s' :
  pool_step verbose drv i s = Some s' ->
  (exists data rest,
      nth_error (workers s) i = Some None
      /\ queue s = data :: rest
      /\ s' = mkPool rest (set_nth i (Some (data, submit verbose data)) (workers s))
                     (futures s) (shared s) (calls s))
  \/ (exists data p r,
         nth_error (workers s) i = Some (Some (data, p))
         /\ thread_step drv p (shared s) = inr r
         /\ s' = mkPool (queue s) (set_nth i None (workers s)) (futures s ++ [r])
                        (shared s) (calls s))
  \/ (exists data p p' log' made,
         nth_error (workers s) i = Some (Some (data, p))
         /\ thread_step drv p (shared s) = inl (p', log', made)
         /\ s' = mkPool (queue s) (set_nth i (Some (data, p')) (workers s))
                        (futures s) log' (calls s ++ made)).
Proof.
  rewrite pool_step_thread.
  destruct (nth_error (workers s) i) as [[[data p]|]|] eqn:En; [| |discriminate].
  - destruct (thread_step drv p (shared s)) as [[[p' log'] made]|r] eqn:Et;
      intros [= <-].
    + right. right. exists data, p, p', log', made. auto.
    + right. left. exists data, p, r. auto.
  - destruct (queue s) as [|data rest]; [discriminate|].
    intros [= <-]. left. exists data, rest. auto.
Qed.

Lemma reachable_ind verbose drv repositories (Inv : pool -> Prop) :
  Inv (start repositories) ->
  (forall i s s', Inv s -> pool_step verbose drv i s = Some s' -> Inv s') ->
  forall schedule s,
    run_schedule verbose drv schedule (start repositories) = Some s -> Inv s.
Proof.
  intros H0 Hstep schedule. generalize (start repositories), H0.
  induction schedule as [|i rest IH]; simpl; intros s0 Hs0 s.
  - intros [= <-]. exact Hs0.
  - destruct (pool_step verbose drv i s0) as [s1|] eqn:E; [|discriminate].
    apply IH. eapply Hstep; eauto.
Qed.

Lemma busy_set_nth i w old ws :
  nth_error ws i = Some old ->
  busy (set_nth i w ws) + (if idle old then 0 else 1)
  = busy ws + (if idle w then 0 else 1).
Proof.
  unfold busy. revert i. induction ws as [|h t IH]; intros [|i]; simpl;
    try discriminate.
  - intros [= ->]. destruct (idle old), (idle w); simpl; lia.
  - intros H. specialize (IH i H). destruct (idle h); simpl; lia.
Qed.

Lemma all_done_busy s : all_done s = true -> queue s = [] /\ busy (workers s) = 0.
Proof.
  unfold all_done, busy. destruct (queue s); [|discriminate].
  intros H. split; [reflexivity|].
  induction (workers s) as [|w ws IH]; [reflexivity|].
  simpl in H. apply andb_true_iff in H. destruct H as [Hw Hws].
  simpl. rewrite Hw. simpl. auto.
Qed.

Lemma pool_accounts verbose drv repositories schedule s :
  run_schedule verbose drv schedule (start repositories) = Some s ->
  length (queue s) + busy (workers s) + length (futures s) = length repositories.
Proof.
  apply reachable_ind
    with (Inv := fun s => length (queue s) + busy (workers s) + length (futures s)
                          = length repositories).
  - simpl. unfold busy. simpl. lia.
  - intros i s0 s1 H Hstep. apply pool_step_cases in Hstep.
    destruct Hstep as [(data & rest & Hi & Hq & ->)
                      |[(data & p & r & Hi & _ & ->)
                       |(data & p & p' & log' & made & Hi & _ & ->)]]; simpl.
    + rewrite Hq in H. simpl in H.
      pose proof (busy_set_nth i (Some (data, submit verbose data)) _ Hi) as Hb.
      simpl in Hb. lia.
    + rewrite length_app. simpl.
      pose proof (busy_set_nth i None _ Hi) as Hb. simpl in Hb. lia.
    + pose proof (busy_set_nth i (Some (data, p')) _ Hi) as Hb. simpl in Hb. lia.
Qed.

(** X11.  Whatever the schedule, and whatever fails or raises on the way, when
    the pool has finished it holds one future for every row of the report:
    no row is skipped because another one went wrong. *)
Theorem every_row_gets_a_future verbose drv repositories schedule s :
  run_schedule verbose drv schedule (start repositories) = Some s ->
  all_done s = true ->
  length (futures s) = length repositories.
Proof.
  intros Hs Hdone. apply pool_accounts in Hs.
  apply all_done_busy in Hdone. destruct Hdone as [Hq Hb].
  rewrite Hq, Hb in Hs. simpl in Hs. exact Hs.
Qed.

Lemma every_row_gets_a_future_witness :
  length (futures sample_final) = length sample_rows.
Proof.
  apply (@every_row_gets_a_future true sample_driver sample_rows sample_schedule
           sample_final).
  - exact sample_run.
  - exact sample_done.
Defined.

Lemma thread_step_in_mono drv p log p' log' made key :
  thread_step drv p log = inl (p', log', made) ->
  dict_in key log = true -> dict_in key log' = true.
Proof.
  destruct p; simpl; try discriminate.
  - intros [= <- <- <-]. auto.
  - intros [= <- <- <-]. auto.
  - intros [= <- <- <-]. apply dict_in_set.
  - unfold dict_append. destruct (dict_get key0 log); [|discriminate].
    intros [= <- <- <-]. apply dict_in_set.
Qed.

Lemma worker_ready_mono log log' w :
  (forall key, dict_in key log = true -> dict_in key log' = true) ->
  worker_ready log w -> worker_ready log' w.
Proof.
  intros Hmono. destruct w as [[data p]|]; simpl; [|auto].
  destruct (dict_in (get_repository data) log) eqn:E.
  - rewrite (Hmono _ E). auto.
  - apply ready_any.
Qed.

Lemma thread_step_ready drv repository p log p' log' made :
  ready repository (dict_in repository log) p ->
  thread_step drv p log = inl (p', log', made) ->
  ready repository (dict_in repository log') p'.
Proof.
  intros Hp. inversion Hp; subst; simpl; try discriminate.
  - intros [= <- <- <-]. auto.
  - intros [= <- <- <-].
    destruct (dict_in repository log); assumption.
  - intros [= <- <- <-]. rewrite dict_in_set_same. assumption.
  - unfold dict_append. destruct (dict_get repository log); [|discriminate].
    intros [= <- <- <-]. rewrite dict_in_set_same. assumption.
Qed.

Lemma thread_step_mild drv repository p log r :
  ready repository (dict_in repository log) p ->
  thread_step drv p log = inr r ->
  mild r.
Proof.
  intros Hp. inversion Hp as [| | | | |line k Hk Hknown]; subst; simpl;
    try discriminate.
  - intros [= <-]. exact I.
  - intros [= <-]. reflexivity.
  - unfold dict_append, dict_in in *.
    destruct (dict_get repository log); [discriminate|discriminate Hknown].
Qed.

Lemma pool_is_ready verbose drv repositories schedule s :
  run_schedule verbose drv schedule (start repositories) = Some s ->
  Forall (worker_ready (shared s)) (workers s) /\ Forall (@mild unit) (futures s).
Proof.
  apply reachable_ind
    with (Inv := fun s => Forall (worker_ready (shared s)) (workers s)
                          /\ Forall (@mild unit) (futures s)).
  - simpl. repeat constructor.
  - intros i s0 s1 [HW HF] Hstep. apply pool_step_cases in Hstep.
    destruct Hstep as [(data & rest & Hi & Hq & ->)
                      |[(data & p & r & Hi & Ht & ->)
                       |(data & p & p' & log' & made & Hi & Ht & ->)]]; simpl.
    + split; [|exact HF]. apply Forall_set_nth; [exact HW|].
      simpl. apply ready_any. apply ready_handle_branch.
    + pose proof Hi as Hp. eapply nth_error_Forall in Hp; [|exact HW].
      simpl in Hp. split; [apply Forall_set_nth; simpl; auto|].
      apply Forall_app. split; [exact HF|]. repeat constructor.
      eapply thread_step_mild; eauto.
    + pose proof Hi as Hp. eapply nth_error_Forall in Hp; [|exact HW].
      simpl in Hp. split; [|exact HF].
      apply Forall_set_nth.
      * eapply Forall_impl; [|exact HW]. intros w.
        apply worker_ready_mono. intros key. eapply thread_step_in_mono. exact Ht.
      * simpl. eapply thread_step_ready; eauto.
Qed.



Lemma thread_step_keys drv repository p log p' log' made key :
  follows drv (touches repository) any p ->
  thread_step drv p log = inl (p', log', made) ->
  In key (map fst log') ->
  In key (map fst log) \/ key = repository.
Proof.
  intros Hp Hstep Hkey.
  assert (Hset : forall v, In key (map fst (dict_set repository v log)) ->
                           In key (map fst log) \/ key = repository).
  { intros v. rewrite dict_set_keys. destruct (dict_in repository log); [auto|].
    intros H. apply in_app_or in H. destruct H as [H|[<-|[]]]; auto. }
  inversion Hp; subst; simpl in Hstep; try discriminate.
  - injection Hstep as <- <- <-. auto.
  - injection Hstep as <- <- <-. auto.
  - injection Hstep as <- <- <-.
    match goal with H : touches _ _ |- _ => unfold touches in H; simpl in H; subst end.
    eapply Hset. exact Hkey.
  - unfold dict_append in Hstep.
    destruct (dict_get key0 log) as [v|]; [|discriminate].
    injection Hstep as <- <- <-.
    match goal with H : touches _ _ |- _ => unfold touches in H; simpl in H; subst end.
    eapply Hset. exact Hkey.
Qed.

Lemma pool_of_report verbose drv repositories schedule s :
  run_schedule verbose drv schedule (start repositories) = Some s ->
  (forall data, In data (queue s) -> In data repositories)
  /\ Forall (worker_of_report drv repositories) (workers s)
  /\ (forall key, In key (map fst (shared s)) ->
                  In key (map get_repository repositories)).
Proof.
  apply reachable_ind
    with (Inv := fun s =>
                   (forall data, In data (queue s) -> In data repositories)
                   /\ Forall (worker_of_report drv repositories) (workers s)
                   /\ (forall key, In key (map fst (shared s)) ->
                                   In key (map get_repository repositories))).
  - simpl. split; [auto|]. split; [repeat constructor|]. intros key [].
  - intros i s0 s1 (HQ & HW & HK) Hstep. apply pool_step_cases in Hstep.
    destruct Hstep as [(data & rest & Hi & Hq & ->)
                      |[(data & p & r & Hi & Ht & ->)
                       |(data & p & p' & log' & made & Hi & Ht & ->)]]; simpl.
    + rewrite Hq in HQ. split; [intros d Hd; apply HQ; right; exact Hd|].
      split; [|exact HK]. apply Forall_set_nth; [exact HW|].
      simpl. split; [apply HQ; left; reflexivity|apply handle_branch_touches].
    + split; [exact HQ|]. split; [|exact HK].
      apply Forall_set_nth; simpl; auto.
    + pose proof Hi as Hp. eapply nth_error_Forall in Hp; [|exact HW].
      simpl in Hp. destruct Hp as [Hdata Hfol].
      split; [exact HQ|]. split.
      * apply Forall_set_nth; [exact HW|]. simpl. split; [exact Hdata|].
        eapply thread_step_follows; eauto.
      * intros key Hkey.
        destruct (@thread_step_keys drv _ _ _ _ _ _ key Hfol Ht Hkey) as [H| ->];
          [auto|].
        apply in_map. exact Hdata.
Qed.

(** X13.  Whatever the schedule, every key of the dictionary is the name of a
    row of the report: the table never shows a repository the report does
    not list. *)
Theorem keys_are_names_of_rows verbose drv repositories schedule s key :
  run_schedule verbose drv schedule (start repositories) = Some s ->
  In key (map fst (shared s)) ->
  In key (map get_repository repositories).
Proof.
  intros Hs. apply pool_of_report in Hs. destruct Hs as (_ & _ & HK). apply HK.
Qed.

Lemma keys_are_names_of_rows_witness :
  In (lit "b") (map get_repository sample_rows).
Proof.
  apply (@keys_are_names_of_rows true sample_driver sample_rows sample_schedule
           sample_final (lit "b")).
  - exact sample_run.
  - rewrite sample_log. right. left. reflexivity.
Defined.

Lemma submit_starts_with_clone verbose drv data log :
  exists p',
    thread_step drv (submit verbose data) log
    = inl (p', log, [git_clone (get_url data)]).
Proof. eexists. reflexivity. Qed.

Lemma pool_clones verbose drv repositories schedule s :
  run_schedule verbose drv schedule (start repositories) = Some s ->
  forall data,
    In data repositories ->
    In data (queue s)
    \/ (exists i, nth_error (workers s) i = Some (Some (data, submit verbose data)))
    \/ In (git_clone (get_url data)) (calls s).
Proof.
  intros Hs.
  pose (Inv := fun s : pool =>
                 forall data,
                   In data repositories ->
                   In data (queue s)
                   \/ (exists i, nth_error (workers s) i
                                 = Some (Some (data, submit verbose data)))
                   \/ In (git_clone (get_url data)) (calls s)).
  change (Inv s). revert Hs. apply reachable_ind; unfold Inv; clear Inv.
  - simpl. auto.
  - intros i s0 s1 H Hstep d Hd. specialize (H d Hd).
    apply pool_step_cases in Hstep.
    destruct Hstep as [(data & rest & Hi & Hq & ->)
                      |[(data & p & r & Hi & Ht & ->)
                       |(data & p & p' & log' & made & Hi & Ht & ->)]]; simpl.
    + destruct H as [H|[(j & Hj)|H]]; [| |auto].
      * rewrite Hq in H. destruct H as [<-|H]; [|auto].
        right. left. exists i. eapply nth_error_set_nth_same. exact Hi.
      * right. left. exists j.
        rewrite nth_error_set_nth_other; [exact Hj|]. congruence.
    + destruct H as [H|[(j & Hj)|H]]; [auto| |auto].
      right. left. exists j. destruct (Nat.eq_dec i j) as [->|Hne].
      * rewrite Hi in Hj. injection Hj as -> ->.
        destruct (submit_starts_with_clone verbose drv d (shared s0)) as [p' Hp'].
        rewrite Hp' in Ht. discriminate Ht.
      * rewrite nth_error_set_nth_other; [exact Hj|exact Hne].
    + destruct H as [H|[(j & Hj)|H]]; [auto| |].
      * destruct (Nat.eq_dec i j) as [->|Hne].
        -- rewrite Hi in Hj. injection Hj as -> ->.
           destruct (submit_starts_with_clone verbose drv d (shared s0)) as [q Hq].
           rewrite Hq in Ht. injection Ht as <- <- <-.
           right. right. apply in_or_app. right. left. reflexivity.
        -- right. left. exists j.
           rewrite nth_error_set_nth_other; [exact Hj|exact Hne].
      * right. right. apply in_or_app. left. exact H.
Qed.

(** X14.  Whatever the schedule, when the pool has finished the clone of every
    row of the report has been invoked: every repository is attempted, also
    after other repositories have failed or raised. *)
Theorem every_row_is_cloned verbose drv repositories schedule s data :
  run_schedule verbose drv schedule (start repositories) = Some s ->
  all_done s = true ->
  In data repositories ->
  In (git_clone (get_url data)) (calls s).
Proof.
  intros Hs Hdone Hin.
  destruct (pool_clones verbose drv repositories schedule Hs data Hin)
    as [H|[(i & Hi)|H]]; [| |exact H].
  - unfold all_done in Hdone. destruct (queue s); [destruct H|discriminate].
  - unfold all_done in Hdone. destruct (queue s); [|discriminate].
    rewrite forallb_forall in Hdone. apply nth_error_In in Hi.
    apply Hdone in Hi. discriminate.
Qed.

Lemma every_row_is_cloned_witness :
  In (git_clone (lit "ub"))
     (calls (reached (run_schedule false undecodable_listing
                        (concat (repeat [0; 1] 4) ++ [1; 1]) (start broken_rows)))).
Proof.
  apply (@every_row_is_cloned false undecodable_listing broken_rows
           (concat (repeat [0; 1] 4) ++ [1; 1])
           (reached (run_schedule false undecodable_listing
                       (concat (repeat [0; 1] 4) ++ [1; 1]) (start broken_rows)))
           (mkData (lit "b") (lit "ub") (lit "h2"))).
  - vm_compute. reflexivity.
  - vm_compute. reflexivity.
  - right. left. reflexivity.
Defined.

(** ** Loading the report *)

Lemma read_rows_spec buildreport :
  forall repositories,
    read_rows buildreport repositories
    = if forallb (fun row => 3 <=? length row) buildreport
      then Some (repositories
                 ++ map (fun row => mkData (nth 0 row []) (nth 1 row []) (nth 2 row []))
                        buildreport)
      else None.
Proof.
  induction buildreport as [|row rest IH]; intros repositories; simpl.
  - rewrite app_nil_r. reflexivity.
  - destruct row as [|f0 [|f1 [|f2 more]]]; try reflexivity.
    rewrite IH. cbn [length Nat.leb andb nth].
    destruct (forallb _ rest); [|reflexivity].
    rewrite <- app_assoc. reflexivity.
Qed.

(** X15.  [load_csv] succeeds exactly when the reader yields at least one row
    and every row, the header included, has at least three fields; it then
    returns one [Data] for every row after the first, in order, made of that
    row's first three fields (further fields are ignored).  An empty file, or
    a row with fewer than three fields (a blank line), raises [IndexError]. *)
Theorem load_csv_spec buildreport :
  load_csv buildreport
  = match buildreport with
    | [] => IndexError
    | header :: rows =>
        if forallb (fun row => 3 <=? length row) (header :: rows)
        then Loaded (map (fun row => mkData (nth 0 row []) (nth 1 row []) (nth 2 row []))
                         rows)
        else IndexError
    end.
Proof.
  unfold load_csv. rewrite read_rows_spec.
  destruct buildreport as [|header rows]; [reflexivity|].
  destruct (forallb _ (header :: rows)); reflexivity.
Qed.

(** ** Messages and markers *)

Lemma remove_newline_filter s :
  remove NEWLINE s = filter (fun c => negb (c =? 10)%N) s.
Proof.
  unfold remove, NEWLINE.
  induction s as [|c t IH]; cbn [remove_aux prefixb length Nat.sub filter];
    [reflexivity|].
  rewrite N.eqb_sym. destruct (c =? 10)%N; cbn [andb negb]; rewrite IH; reflexivity.
Qed.

(** X16.  The message of an outcome is the decoded text with its newline
    characters dropped and nothing put in their place, every other character
    kept in order: the lines of a multi-line diagnostic are run together. *)
Theorem message_is_text_without_newlines b m code text :
  decode (b :: m) = Some text ->
  Error_init (Some (b :: m)) code
  = Normal (mkError (filter (fun c => negb (c =? 10)%N) text) (negb (code =? 0)%Z)).
Proof.
  intros H. unfold Error_init. rewrite H, remove_newline_filter. reflexivity.
Qed.

Lemma message_is_text_without_newlines_witness :
  Error_init (Some (ascii_bytes ("Merge made." ++ LF ++ " 1 file changed" ++ LF))) 0
  = Normal (mkError
              (filter (fun c => negb (c =? 10)%N)
                      (lit ("Merge made." ++ LF ++ " 1 file changed" ++ LF)))
              (negb (0 =? 0)%Z)).
Proof.
  apply (@message_is_text_without_newlines "M"%byte
           (ascii_bytes ("erge made." ++ LF ++ " 1 file changed" ++ LF)) 0%Z
           (lit ("Merge made." ++ LF ++ " 1 file changed" ++ LF))).
  vm_compute. reflexivity.
Defined.

Lemma remove_aux_no_start c rest s t :
  ~ In c s ->
  remove_aux (c :: rest) 0 (s ++ t) = s ++ remove_aux (c :: rest) 0 t.
Proof.
  induction s as [|x s IH]; intros Hs; [reflexivity|].
  cbn [app remove_aux prefixb].
  assert (Hx : (c =? x)%N = false).
  { apply N.eqb_neq. intros ->. apply Hs. left. reflexivity. }
  rewrite Hx. cbn [andb]. rewrite IH; [reflexivity|].
  intros Hin. apply Hs. right. exact Hin.
Qed.

(** X17.  For a message without escape character, the measuring loop sees the
    marked line as long as the message itself: taking out [RED] and [RESET]
    gives back exactly the message, and leaves an unmarked message alone. *)
Theorem markers_are_measured_out message :
  ~ In 27%N message ->
  cleaned (RED ++ message ++ RESET) = message
  /\ cleaned message = message.
Proof.
  intros H. unfold cleaned.
  assert (Hred : forall t, remove RED (message ++ t) = message ++ remove RED t).
  { intros t. unfold remove, RED. cbn [lit]. apply remove_aux_no_start. exact H. }
  assert (Hreset : forall t, remove RESET (message ++ t) = message ++ remove RESET t).
  { intros t. unfold remove, RESET. cbn [lit]. apply remove_aux_no_start. exact H. }
  split.
  - replace (remove RED (RED ++ message ++ RESET)) with (remove RED (message ++ RESET))
      by reflexivity.
    rewrite Hred. replace (remove RED RESET) with RESET by reflexivity.
    rewrite Hreset. replace (remove RESET RESET) with (@nil N) by reflexivity.
    apply app_nil_r.
  - rewrite <- (app_nil_r message) at 1 2.
    rewrite Hred. replace (remove RED []) with (@nil N) by reflexivity.
    rewrite Hreset. replace (remove RESET []) with (@nil N) by reflexivity.
    reflexivity.
Qed.

Lemma markers_are_measured_out_witness :
  cleaned (RED ++ lit "fatal: not a git repository" ++ RESET)
  = lit "fatal: not a git repository"
  /\ cleaned (lit "fatal: not a git repository") = lit "fatal: not a git repository".
Proof.
  apply (@markers_are_measured_out (lit "fatal: not a git repository")).
  vm_compute.
  intros H. repeat (destruct H as [H|H]; [discriminate H|]). exact H.
Defined.

(** ** The table of a quiet batch *)

Ltac alone_leaf :=
  cbn [run fst snd];
  first [ left; reflexivity | right; eexists; reflexivity ].

Lemma quiet_alone drv data :
  alone false drv data = []
  \/ exists message,
      alone false drv data
      = [(get_repository data, [RED ++ message ++ RESET])].
Proof.
  unfold alone, submit, handle_branch, log_of.
  set (repository := get_repository data). set (url := get_url data).
  set (hashcode := get_hashcode data).
  rewrite run_bind, run_clone, after_quiet.
  destruct (piped_outcome drv (git_clone url)) as [e|x]; [|alone_leaf].
  destruct (is_error e); [alone_leaf|].
  rewrite run_bind, run_branch_exists.
  destruct (branch_found drv repository STABLE_BRANCH_NAME) as [[|]|x];
    [| |alone_leaf].
  - rewrite run_bind, run_checkout_branch, after_quiet.
    destruct (piped_outcome drv (git_checkout repository STABLE_BRANCH_NAME))
      as [e1|x]; [|alone_leaf].
    destruct (is_error e1); [alone_leaf|].
    rewrite run_bind, run_merge, after_quiet.
    destruct (merge_outcome drv (git_merge repository hashcode)) as [e2|x];
      [destruct (is_error e2)|]; alone_leaf.
  - rewrite run_bind, run_checkout_branch, after_quiet.
    destruct (piped_outcome drv (git_checkout repository hashcode))
      as [e1|x]; [|alone_leaf].
    destruct (is_error e1); [alone_leaf|].
    rewrite run_bind, run_create_branch, after_quiet.
    destruct (create_outcome drv (git_checkout_b repository STABLE_BRANCH_NAME))
      as [e2|x]; [destruct (is_error e2)|]; alone_leaf.
Qed.

(** X18.  With [verbose] off and rows of pairwise distinct names, whatever the
    schedule, when the pool has finished a repository of the report has no
    entry in the dictionary or exactly one line, a message between the error
    markers: the table shows at most one row for a repository, its first
    failure. *)
Theorem quiet_batch_has_one_line_per_failure drv repositories schedule s data :
  NoDup (map get_repository repositories) ->
  run_schedule false drv schedule (start repositories) = Some s ->
  all_done s = true ->
  In data repositories ->
  dict_get (get_repository data) (shared s) = None
  \/ exists message,
      dict_get (get_repository data) (shared s)
      = Some [RED ++ message ++ RESET].
Proof.
  intros Hnd Hs Hdone Hin.
  assert (Hiso : isolated false drv repositories s).
  { eapply run_schedule_isolated; [apply start_isolated; exact Hnd|exact Hs]. }
  destruct Hiso as [_ _ _ _ _ Hall].
  assert (Hset : dict_get (get_repository data) (shared s)
                 = dict_get (get_repository data) (alone false drv data)).
  { unfold all_done in Hdone. destruct (queue s) as [|d q] eqn:Eq; [|discriminate].
    destruct (Hall data Hin) as [Hq|[(i & p & Hrun)|(Hset & _)]].
    - try rewrite Eq in Hq. destruct Hq.
    - rewrite forallb_forall in Hdone. unfold running in Hrun.
      apply nth_error_In in Hrun. apply Hdone in Hrun. discriminate.
    - exact Hset. }
  rewrite Hset.
  destruct (quiet_alone drv data) as [->|[message ->]].
  - left. reflexivity.
  - right. exists message. simpl. rewrite eqb_refl. reflexivity.
Qed.

Lemma quiet_batch_has_one_line_per_failure_witness :
  dict_get (lit "a")
    (shared (reached (run_schedule false broken_listing broken_schedule
                        (start broken_rows)))) = None
  \/ exists message,
      dict_get (lit "a")
        (shared (reached (run_schedule false broken_listing broken_schedule
                            (start broken_rows))))
      = Some [RED ++ message ++ RESET].
Proof.
  apply (@quiet_batch_has_one_line_per_failure broken_listing broken_rows
           broken_schedule
           (reached (run_schedule false broken_listing broken_schedule
                       (start broken_rows)))
           (mkData (lit "a") (lit "ua") (lit "h1"))).
  - repeat constructor; simpl; intuition discriminate.
  - vm_compute. reflexivity.
  - vm_compute. reflexivity.
  - left. reflexivity.
Defined.

Lemma verbose_run_records_every_operation_witness :
  exists added,
    dict_get (lit "b")
      (log_of (run sample_driver (handle_branch true (lit "ub") (lit "b") (lit "h2"))
                   [] []))
    = Some (match dict_get (lit "b") [] with
            | Some lines => lines
            | None => []
            end ++ added)
    /\ length added
       = length (snd (run sample_driver
                        (handle_branch true (lit "ub") (lit "b") (lit "h2")) [] []))
         - (if length (snd (run sample_driver
                              (handle_branch true (lit "ub") (lit "b") (lit "h2"))
                              [] []))
               <=? 1
            then 0 else 1).
Proof.
  apply (@verbose_run_records_every_operation sample_driver (lit "ub") (lit "b")
           (lit "h2") []).
  vm_compute. reflexivity.
Defined.
